(** * HadithTranslator: a shallow embedding of [hadith_translator.py]

    The development follows the source file function by function:
    Python text is a list of Unicode code points, the values read from
    and written to JSON files are a small JSON value type, exceptions
    are an error monad, and the console, the output directory and the
    external service are an explicit world that is threaded through the
    orchestrator. *)

From Stdlib Require Import String Ascii.
From Stdlib Require Import List ZArith NArith Lia Bool Arith Sorted Permutation.
Import ListNotations.

Set Implicit Arguments.

(** ** Python text *)

Module Py.

(** A character is a Unicode code point; a [str] is a list of them. *)
Definition char := N.
Definition str := list char.

Definition lit (s : string) : str :=
  map N_of_ascii (list_ascii_of_string s).

Definition LF : char := 10%N.
Definition SPACE : char := 32%N.
Definition COLON : char := 58%N.
Definition UNDERSCORE : char := 95%N.
Definition DOT : char := 46%N.
Definition PLUS : char := 43%N.
Definition MINUS : char := 45%N.

Definition str_eqb (a b : str) : bool :=
  if list_eq_dec N.eq_dec a b then true else false.

Definition in_range (c lo hi : N) : bool :=
  ((lo <=? c) && (c <=? hi))%N.

Definition in_ranges (rs : list (N * N)) (c : N) : bool :=
  existsb (fun r => in_range c (fst r) (snd r)) rs.

(** The code points for which [str.isspace] holds; these are the ones
    [str.strip()] removes (Unicode 14 character database). *)
Definition space_ranges : list (N * N) :=
  [(9, 13); (28, 32); (133, 133); (160, 160); (5760, 5760); (8192, 8202);
   (8232, 8233); (8239, 8239); (8287, 8287); (12288, 12288)]%N.

Definition isspace_char (c : char) : bool := in_ranges space_ranges c.

(** The code point of digit zero in every decimal script; the nine
    code points after it are the digits one to nine of that script. *)
Definition decimal_zeros : list N :=
  [48; 1632; 1776; 1984; 2406; 2534; 2662; 2790; 2918; 3046; 3174; 3302;
   3430; 3558; 3664; 3792; 3872; 4160; 4240; 6112; 6160; 6470; 6608; 6784;
   6800; 6992; 7088; 7232; 7248; 42528; 43216; 43264; 43472; 43504; 43600;
   44016; 65296; 66720; 68912; 69734; 69872; 69942; 70096; 70384; 70736;
   70864; 71248; 71360; 71472; 71904; 72016; 72784; 73040; 73120; 92768;
   92864; 93008; 120782; 120792; 120802; 120812; 120822; 123200; 123632;
   125264; 130032]%N.

Fixpoint find_decimal (zs : list N) (c : char) : option N :=
  match zs with
  | [] => None
  | z :: zs' =>
      if in_range c z (z + 9) then Some (c - z)%N else find_decimal zs' c
  end.

(** [decimal_value c] is the value [int] gives the character, when it
    has one ([str.isdecimal]). *)
Definition decimal_value (c : char) : option N :=
  find_decimal decimal_zeros c.

(** Characters that are digits for [str.isdigit] without being decimal:
    superscripts, subscripts, circled digits and the like. *)
Definition other_digit_ranges : list (N * N) :=
  [(178, 179); (185, 185); (4969, 4977); (6618, 6618); (8304, 8304);
   (8308, 8313); (8320, 8329); (9312, 9320); (9332, 9340); (9352, 9360);
   (9450, 9450); (9461, 9469); (9471, 9471); (10102, 10110);
   (10112, 10120); (10122, 10130); (68160, 68163); (69216, 69224);
   (69714, 69722); (127232, 127242)]%N.

Definition isdigit_char (c : char) : bool :=
  match decimal_value c with
  | Some _ => true
  | None => in_ranges other_digit_ranges c
  end.

(** [s.isdigit()]: non-empty and every character a digit. *)
Definition isdigit (s : str) : bool :=
  match s with
  | [] => false
  | _ => forallb isdigit_char s
  end.

(** [s.strip()] *)
Fixpoint lstrip (s : str) : str :=
  match s with
  | [] => []
  | c :: s' => if isspace_char c then lstrip s' else s
  end.

Definition rstrip (s : str) : str := rev (lstrip (rev s)).

Definition strip (s : str) : str := rstrip (lstrip s).

(** [s.split(sep)] for a one-character separator: the result is never
    empty, and an empty [s] gives one empty field. *)
Fixpoint split (sep : char) (s : str) : list str :=
  match s with
  | [] => [[]]
  | c :: s' =>
      if (c =? sep)%N then [] :: split sep s'
      else match split sep s' with
           | [] => [[c]]
           | f :: fs => (c :: f) :: fs
           end
  end.

(** [s.split(sep, 1)]: one field when [sep] does not occur, else two. *)
Fixpoint split_once (sep : char) (s : str) : list str :=
  match s with
  | [] => [[]]
  | c :: s' =>
      if (c =? sep)%N then [[]; s']
      else match split_once sep s' with
           | f :: fs => (c :: f) :: fs
           | [] => [[c]]
           end
  end.

(** [c in s] *)
Definition contains (c : char) (s : str) : bool :=
  existsb (fun x => (x =? c)%N) s.

(** [sep.join(parts)] *)
Fixpoint join (sep : str) (parts : list str) : str :=
  match parts with
  | [] => []
  | [p] => p
  | p :: ps => p ++ sep ++ join sep ps
  end.

(** [s.endswith(suffix)] *)
Definition endswith (s suffix : str) : bool :=
  str_eqb (skipn (length s - length suffix) s) suffix
  && (length suffix <=? length s).

(** [str(n)] for an integer. *)
Fixpoint digits_fuel (fuel : nat) (n : N) (acc : str) : str :=
  match fuel with
  | O => acc
  | S fuel' =>
      let acc' := (48 + n mod 10)%N :: acc in
      if (n / 10 =? 0)%N then acc' else digits_fuel fuel' (n / 10)%N acc'
  end.

Definition str_of_N (n : N) : str :=
  digits_fuel (S (N.to_nat (N.log2 n))) n [].

Definition str_of_Z (z : Z) : str :=
  match z with
  | Zneg p => MINUS :: str_of_N (Npos p)
  | _ => str_of_N (Z.to_N z)
  end.

(** The body of an integer literal as [int] reads it: decimal digits,
    single underscores allowed between two digits. *)
Fixpoint int_body (acc : N) (after_digit : bool) (s : str) : option N :=
  match s with
  | [] => if after_digit then Some acc else None
  | c :: s' =>
      if (c =? UNDERSCORE)%N then
        if after_digit then int_body acc false s' else None
      else
        match decimal_value c with
        | Some v => int_body (10 * acc + v)%N true s'
        | None => None
        end
  end.

(** [int(s)] in base ten; [None] is [ValueError].  The interpreter's
    configurable bound on the number of digits is not modelled. *)
Definition int (s : str) : option Z :=
  match strip s with
  | c :: s' =>
      if (c =? MINUS)%N then option_map (fun n => (- Z.of_N n)%Z) (int_body 0 false s')
      else if (c =? PLUS)%N then option_map Z.of_N (int_body 0 false s')
      else option_map Z.of_N (int_body 0 false (c :: s'))
  | [] => None
  end.

End Py.

Import Py.

(** ** Exceptions and results *)

Inductive exn : Type :=
| ValueError
| KeyError
| TypeError
| IndexError
| JSONDecodeError
| OSError
| ServiceError.

Inductive result (A : Type) : Type :=
| Ok (a : A)
| Raise (e : exn).
Arguments Ok {A} a.
Arguments Raise {A} e.

Definition bind {A B : Type} (r : result A) (k : A -> result B) : result B :=
  match r with
  | Ok a => k a
  | Raise e => Raise e
  end.

Declare Scope result_scope.
Delimit Scope result_scope with result.
Notation "x <- r ;; k" := (bind r (fun x => k))
  (at level 61, r at next level, right associativity) : result_scope.

Definition of_option {A : Type} (e : exn) (o : option A) : result A :=
  match o with
  | Some a => Ok a
  | None => Raise e
  end.

(** ** JSON values and dictionaries

    What [json.load] returns and [json.dump] accepts.  Numbers with a
    fractional part do not occur in the files of this program and are
    left out. *)

#[warnings="-register-all"]
Inductive json : Type :=
| JNull
| JBool (b : bool)
| JInt (z : Z)
| JStr (s : str)
| JArr (items : list json)
| JObj (fields : list (str * json)).

(** A [dict] keeps its keys in insertion order; assigning to a key that
    is present replaces the value in place. *)
Definition dict := list (str * json).

Fixpoint dict_get (d : dict) (k : str) : option json :=
  match d with
  | [] => None
  | (k', v) :: d' => if str_eqb k' k then Some v else dict_get d' k
  end.

Fixpoint dict_set (d : dict) (k : str) (v : json) : dict :=
  match d with
  | [] => [(k, v)]
  | (k', v') :: d' =>
      if str_eqb k' k then (k', v) :: d' else (k', v') :: dict_set d' k v
  end.

(** The truth value of a JSON value in a condition. *)
Definition truthy (j : json) : bool :=
  match j with
  | JNull => false
  | JBool b => b
  | JInt z => negb (z =? 0)%Z
  | JStr s => match s with [] => false | _ => true end
  | JArr l => match l with [] => false | _ => true end
  | JObj d => match d with [] => false | _ => true end
  end.

(** ** Input records

    A hadith of the input file: the fields the program reads.  [None]
    is an absent key. *)

Inductive english_field : Type :=
| EnglishAbsent
| EnglishText (s : str)
| EnglishDict (narrator text : option str).

Record hadith : Type := Hadith {
  id : Z;
  arabic : option str;
  english : english_field
}.

Definition get_default (o : option str) : str :=
  match o with
  | Some s => s
  | None => []
  end.

Section Translator.

(** [str.lower] is the interpreter's case mapping; nothing below
    depends on what it does. *)
Variable lower : str -> str.

(** [self.target_language] *)
Variable target_language : str.

(** *** create_batch_prompt *)

Definition english_text (h : hadith) : str :=
  match english h with
  | EnglishDict narrator text =>
      strip (get_default narrator ++ [SPACE] ++ get_default text)
  | EnglishText s => s
  | EnglishAbsent => []
  end.

Definition prompt_entry (h : hadith) : str :=
  lit "ID: " ++ str_of_Z (id h) ++ [LF]
  ++ lit "Arabic: " ++ get_default (arabic h) ++ [LF]
  ++ lit "English: " ++ english_text h.

Definition prompt_header : str :=
  lit "Translate the following hadith texts to " ++ target_language
  ++ lit "." ++ [LF]
  ++ lit "For each hadith, return only the ID and translation in this exact format:"
  ++ [LF]
  ++ lit "[ID]: [" ++ target_language ++ lit " translation]" ++ [LF; LF]
  ++ lit "Here are the hadiths:" ++ [LF; LF].

(** The loop appends one entry per hadith to [texts]. *)
Definition prompt_texts (hadiths : list hadith) : list str :=
  fold_left (fun texts h => texts ++ [prompt_entry h]) hadiths [].

Definition create_batch_prompt (hadiths : list hadith) : list json :=
  [JObj [(lit "text",
          JStr (prompt_header ++ join [LF; LF] (prompt_texts hadiths)))]].

(** *** parse_gemini_response *)

(** The dictionary literal [{'id': current_id, key: text}]. *)
Definition translation_record (current_id : Z) (text : str) : json :=
  JObj (dict_set (dict_set [] (lit "id") (JInt current_id))
                 (lower target_language) (JStr text)).

Record parser_state : Type := ParserState {
  translations : list json;
  current_id : option Z;
  current_translation : list str
}.

(** [if current_id is not None and current_translation: append] *)
Definition flush (st : parser_state) : list json :=
  match current_id st, current_translation st with
  | Some i, _ :: _ =>
      translations st ++ [translation_record i (join [SPACE] (current_translation st))]
  | _, _ => translations st
  end.

Definition is_id_line (line : str) : bool :=
  contains COLON line && isdigit (strip (hd [] (split COLON line))).

Definition parse_line (st : parser_state) (raw : str) : result parser_state :=
  let line := strip raw in
  match line with
  | [] => Ok st
  | _ =>
      if is_id_line line then
        let translations' := flush st in
        let parts := split_once COLON line in
        (i <- of_option ValueError (int (strip (hd [] parts))) ;;
         Ok (ParserState translations' (Some i)
               (if 1 <? length parts then [strip (nth 1 parts [])] else [])))%result
      else
        match current_id st with
        | Some _ =>
            Ok (ParserState (translations st) (current_id st)
                  (current_translation st ++ [line]))
        | None => Ok st
        end
  end.

Fixpoint parse_lines (st : parser_state) (lines : list str) : result parser_state :=
  match lines with
  | [] => Ok st
  | l :: ls => (st' <- parse_line st l ;; parse_lines st' ls)%result
  end.

Definition parse_gemini_response (response_text : str) : result (list json) :=
  (st <- parse_lines (ParserState [] None []) (split LF (strip response_text)) ;;
   Ok (flush st))%result.

End Translator.

(** ** The world of a run

    The output directory is a listing of file names with their
    contents, in the order [os.listdir] reports them.  A file either
    holds the text of a JSON value or text [json.load] rejects. *)

Inductive file_content : Type :=
| Valid (j : json)
| Corrupt.

Definition directory := list (str * file_content).

Fixpoint write_file (d : directory) (name : str) (c : file_content) : directory :=
  match d with
  | [] => [(name, c)]
  | (n, c') :: d' =>
      if str_eqb n name then (n, c) :: d' else (n, c') :: write_file d' name c
  end.

(** What the program prints, and the pauses it makes. *)
Inductive event : Type :=
| SavedBatch (batch_num : Z) (batch_file : str)
| ProcessedBatch (batch_num : Z) (count : nat)
| ErrorProcessingBatch (batch_num : Z) (e : exn)
| Sleep (seconds : nat)
| ErrorReading (filename : str)
| StartingInitialTranslation
| CombiningBatches
| CheckingMissing
| FoundMissing (count : nat)
| ProcessingMissing (batch_size : nat)
| TranslationComplete (final_output : str).

Record world : Type := World {
  files : directory;
  console : list event;
  attempts : nat;
  final_file : option (list json)
}.

Definition print (e : event) (w : world) : world :=
  World (files w) (console w ++ [e]) (attempts w) (final_file w).

Definition set_files (d : directory) (w : world) : world :=
  World d (console w) (attempts w) (final_file w).

(** How writing a chunk file ends: it succeeds, [open] fails and
    leaves the directory as it was, or the write fails after [open]
    has created or emptied the file. *)
Inductive write_outcome : Type :=
| WriteOk
| OpenFails
| DumpFails.

Definition output_dir : str := lit "batch_translations".

(** [os.path.join] *)
Definition path_join (a b : str) : str := a ++ lit "/" ++ b.

Definition batch_file_name (batch_num : Z) : str :=
  lit "batch_" ++ str_of_Z batch_num ++ lit ".json".

(** [python_range fuel i stop step] lists [range(i, stop, step)] for a
    positive [step]; [stop] steps of fuel are enough. *)
Fixpoint python_range (fuel i stop step : nat) : list nat :=
  match fuel with
  | O => []
  | S fuel' =>
      if i <? stop then i :: python_range fuel' (i + step) stop step else []
  end.

(** [l[i:j]] for [0 <= i], [0 <= j] *)
Definition slice {A : Type} (l : list A) (i j : nat) : list A :=
  firstn (j - i) (skipn i l).

Section Orchestrator.

Variable lower : str -> str.
Variable target_language : str.

(** The external service: what the [k]-th request of the run, made
    with [contents], gives as [response.text], or the exception the
    call or the access raises. *)
Variable generate_content : nat -> list json -> result str.

(** How the write of the [k]-th request's chunk file ends. *)
Variable disk : nat -> write_outcome.

(** *** save_batch *)

Definition save_batch (translations : list json) (batch_num : Z) (k : nat)
    (w : world) : result unit * world :=
  let name := batch_file_name batch_num in
  match disk k with
  | OpenFails => (Raise OSError, w)
  | DumpFails => (Raise OSError, set_files (write_file (files w) name Corrupt) w)
  | WriteOk =>
      let w1 := set_files (write_file (files w) name (Valid (JArr translations))) w in
      (Ok tt, print (SavedBatch batch_num (path_join output_dir name)) w1)
  end.

(** *** translate_hadiths *)

Record loop_state : Type := LoopState {
  acc : list json;
  batch_num : Z;
  now : world
}.

(** The [except Exception] branch: print and continue. *)
Definition on_error (st : loop_state) (w : world) (e : exn) : loop_state :=
  LoopState (acc st) (batch_num st)
            (print (ErrorProcessingBatch (batch_num st) e) w).

Definition next_request (w : world) : world :=
  World (files w) (console w) (S (attempts w)) (final_file w).

(** The body of the [try] for the chunk starting at index [i]: what it
    yields for [translations.extend], or the exception it raises, and
    the world it leaves. *)
Definition try_batch (hadiths : list hadith) (batch_size : nat)
    (st : loop_state) (i : nat) : result (list json) * world :=
  let batch := slice hadiths i (Nat.min (i + batch_size) (length hadiths)) in
  let k := attempts (now st) in
  let w := next_request (now st) in
  let contents := create_batch_prompt target_language batch in
  match generate_content k contents with
  | Raise e => (Raise e, w)
  | Ok text =>
      match parse_gemini_response lower target_language text with
      | Raise e => (Raise e, w)
      | Ok batch_translations =>
          match save_batch batch_translations (batch_num st) k w with
          | (Raise e, w') => (Raise e, w')
          | (Ok _, w') =>
              (Ok batch_translations,
               print (Sleep 3)
                 (print (ProcessedBatch (batch_num st)
                           (length batch_translations)) w'))
          end
      end
  end.

(** One iteration of the loop over [range(0, len(hadiths), batch_size)]:
    a chunk that went through extends [translations] and advances
    [batch_num]; an exception is printed and the loop goes on. *)
Definition translate_batch (hadiths : list hadith) (batch_size : nat)
    (st : loop_state) (i : nat) : loop_state :=
  match try_batch hadiths batch_size st i with
  | (Ok batch_translations, w') =>
      LoopState (acc st ++ batch_translations) (batch_num st + 1) w'
  | (Raise e, w') => on_error st w' e
  end.

Definition translate_hadiths (hadiths : list hadith) (batch_size : nat)
    (w : world) : result (list json) * world :=
  match batch_size with
  | O => (Raise ValueError, w)
  | _ =>
      let st := fold_left (translate_batch hadiths batch_size)
                  (python_range (length hadiths) 0 (length hadiths) batch_size)
                  (LoopState [] 1 w) in
      (Ok (acc st), now st)
  end.

(** *** combine_batches_except_last *)

(** The sort key [int(x.split('_')[1].split('.')[0])]. *)
Definition batch_key (x : str) : result Z :=
  (part <- of_option IndexError (nth_error (split UNDERSCORE x) 1) ;;
   of_option ValueError (int (hd [] (split DOT part))))%result.

Fixpoint keyed (names : list str) : result (list (Z * str)) :=
  match names with
  | [] => Ok []
  | x :: xs =>
      (k <- batch_key x ;; ks <- keyed xs ;; Ok ((k, x) :: ks))%result
  end.

(** [sorted] is stable: an element goes after the ones whose key is not
    greater. *)
Fixpoint insert_by_key (kx : Z * str) (l : list (Z * str)) : list (Z * str) :=
  match l with
  | [] => [kx]
  | ky :: l' =>
      if (fst ky <=? fst kx)%Z then ky :: insert_by_key kx l' else kx :: ky :: l'
  end.

Definition sort_by_key (l : list (Z * str)) : list (Z * str) :=
  fold_left (fun sorted kx => insert_by_key kx sorted) l [].

Definition json_names (d : directory) : list str :=
  filter (fun f => endswith f (lit ".json")) (map fst d).

Definition batch_files (d : directory) : result (list str) :=
  (ks <- keyed (json_names d) ;; Ok (map snd (sort_by_key ks)))%result.

Fixpoint read_file (d : directory) (name : str) : option file_content :=
  match d with
  | [] => None
  | (n, c) :: d' => if str_eqb n name then Some c else read_file d' name
  end.

(** What one file adds to [combined_hadiths]. *)
Definition batch_contribution (batch_data : json) : list json :=
  match batch_data with
  | JArr items =>
      if truthy batch_data then
        if length items <? 20 then removelast items else items
      else []
  | _ => []
  end.

Definition combine_file (d : directory) (st : list json * world) (filename : str)
    : list json * world :=
  match read_file d filename with
  | Some (Valid batch_data) => (fst st ++ batch_contribution batch_data, snd st)
  | Some Corrupt => (fst st, print (ErrorReading filename) (snd st))
  | None => st
  end.

Definition combine_batches_except_last (w : world) : result (list json) * world :=
  match batch_files (files w) with
  | Raise e => (Raise e, w)
  | Ok names =>
      let st := fold_left (combine_file (files w)) names ([], w) in
      (Ok (fst st), snd st)
  end.

(** *** find_missing_hadiths *)

(** [hadith['id']] on a translated record, as an element of a set. *)
Definition record_id (r : json) : result json :=
  match r with
  | JObj d =>
      match dict_get d (lit "id") with
      | Some (JArr _) | Some (JObj _) => Raise TypeError
      | Some v => Ok v
      | None => Raise KeyError
      end
  | _ => Raise TypeError
  end.

Fixpoint record_ids (rs : list json) : result (list json) :=
  match rs with
  | [] => Ok []
  | r :: rs' => (v <- record_id r ;; vs <- record_ids rs' ;; Ok (v :: vs))%result
  end.

(** Equality of an integer with a member of the set. *)
Definition int_equals (z : Z) (v : json) : bool :=
  match v with
  | JInt z' => (z =? z')%Z
  | JBool b => (z =? (if b then 1 else 0))%Z
  | _ => false
  end.

Definition in_ids (z : Z) (ids : list json) : bool :=
  existsb (int_equals z) ids.

(** [original_hadiths] is what the input file holds. *)
Definition find_missing_hadiths (original_hadiths : list hadith)
    (translated_hadiths : list json) : result (list hadith) :=
  (translated_ids <- record_ids translated_hadiths ;;
   Ok (filter (fun h => negb (in_ids (id h) translated_ids)) original_hadiths))%result.

(** *** process_all *)

Definition final_output : str := lit "final_translations.json".

Definition write_final (combined : list json) (w : world) : world :=
  World (files w) (console w) (attempts w) (Some combined).

Definition reconcile (missing : list hadith) (combined : list json) (w : world)
    : result (list json) * world :=
  match missing with
  | [] => (Ok combined, w)
  | _ =>
      let w1 := print (FoundMissing (length missing)) w in
      let batch_size := if length missing <? 20 then 5 else 20 in
      let w2 := print (ProcessingMissing batch_size) w1 in
      match translate_hadiths missing batch_size w2 with
      | (Ok additional, w3) => (Ok (combined ++ additional), w3)
      | (Raise e, w3) => (Raise e, w3)
      end
  end.

Definition process_all (hadiths : list hadith) (w : world) : result unit * world :=
  let w1 := print StartingInitialTranslation w in
  match translate_hadiths hadiths 20 w1 with
  | (Raise e, w2) => (Raise e, w2)
  | (Ok _, w2) =>
      let w3 := print CombiningBatches w2 in
      match combine_batches_except_last w3 with
      | (Raise e, w4) => (Raise e, w4)
      | (Ok combined, w4) =>
          let w5 := print CheckingMissing w4 in
          match find_missing_hadiths hadiths combined with
          | Raise e => (Raise e, w5)
          | Ok missing =>
              match reconcile missing combined w5 with
              | (Raise e, w6) => (Raise e, w6)
              | (Ok combined', w6) =>
                  (Ok tt, print (TranslationComplete final_output)
                            (write_final combined' w6))
              end
          end
      end
  end.

End Orchestrator.

(** ** Sample data used by the examples *)

(** A case mapping for the examples: ASCII capitals to small letters. *)
Definition lower_ascii (s : str) : str :=
  map (fun c => if in_range c 65 90 then (c + 32)%N else c) s.

Definition sample_hadith (i : nat) : hadith :=
  Hadith (Z.of_nat i) (Some (lit "matn")) (EnglishText (lit "text")).

Definition sample_hadiths (n : nat) : list hadith :=
  map sample_hadith (seq 1 n).

(** The reply lines ["{id}: {text}"] for a list of pairs, one per line. *)
Definition reply_line (p : Z * str) : str :=
  str_of_Z (fst p) ++ lit ": " ++ snd p.

Definition reply_of_pairs (pairs : list (Z * str)) : str :=
  join [LF] (map reply_line pairs).

Definition sample_reply (first count : nat) : str :=
  reply_of_pairs (map (fun i => (Z.of_nat i, lit "tarjama")) (seq first count)).

(** A service that answers the three requests of a 25-record run. *)
Definition sample_service (k : nat) (contents : list json) : result str :=
  match k with
  | 0 => Ok (sample_reply 1 20)
  | 1 => Ok (sample_reply 21 5)
  | _ => Ok (sample_reply 25 1)
  end.

Definition disk_ok (k : nat) : write_outcome := WriteOk.



(** The identifier of a translated record, when it is an integer. *)
Definition tr_id (r : json) : option Z :=
  match r with
  | JObj d =>
      match dict_get d (lit "id") with
      | Some (JInt z) => Some z
      | _ => None
      end
  | _ => None
  end.

(** The records of a chunk the output directory holds, by file name. *)
Definition file_contribution (d : directory) (filename : str) : list json :=
  match read_file d filename with
  | Some (Valid batch_data) => batch_contribution batch_data
  | _ => []
  end.

Definition is_corrupt (d : directory) (filename : str) : bool :=
  match read_file d filename with
  | Some Corrupt => true
  | _ => false
  end.

Definition fresh_world : world := World [] [] 0 None.

(** The text of a pair as the round trip describes it: one line, its
    own [strip], not empty, and nothing purely numeric before a colon. *)
Definition text_as_described (t : str) : Prop :=
  t <> [] /\ ~ In LF t /\ strip t = t
  /\ (contains COLON t = true -> isdigit (strip (hd [] (split COLON t))) = false).

Definition sample_pairs : list (Z * str) :=
  [(7%Z, lit "la premiere"); (12%Z, lit "note: la seconde")].

Definition negative_pairs : list (Z * str) := [((-1)%Z, lit "salam")].

(** Superscript two, a digit for [isdigit] that [int] rejects. *)
Definition SUPERSCRIPT_TWO : char := 178%N.

(** Printing several messages in a row. *)
Definition log_all (evs : list event) (w : world) : world :=
  World (files w) (console w ++ evs) (attempts w) (final_file w).

(** An identifier occurs among the identifiers of the translated
    records. *)
Definition id_translated (z : Z) (translated : list json) : Prop :=
  exists r v, In r translated /\ record_id r = Ok v /\ int_equals z v = true.

(** Translated records as the parser builds them for French. *)
Definition sample_records (ids : list Z) : list json :=
  map (fun i => translation_record lower_ascii (lit "French") i (lit "tarjama")) ids.

(** A service that is down. *)
Definition service_down (k : nat) (contents : list json) : result str :=
  Raise ServiceError.


(** The service answers the [k]-th request, made for [chunk], with a
    valid and complete reply: a text that parses into one record per
    hadith of the chunk, with the identifiers of the chunk in order. *)
Definition valid_reply (lower : str -> str) (target_language : str)
    (generate_content : nat -> list json -> result str)
    (k : nat) (chunk : list hadith) (recs : list json) : Prop :=
  exists reply,
    generate_content k (create_batch_prompt target_language chunk) = Ok reply
    /\ parse_gemini_response lower target_language reply = Ok recs
    /\ map tr_id recs = map (fun h => Some (id h)) chunk.

(** ** Notions used in the statements and proofs *)

(** An ASCII digit, ['0'] to ['9']. *)
Definition ascii_digit (c : char) : Prop := (48 <= c <= 57)%N.

(** No whitespace at the start, or at the end, of a text. *)
Definition starts_clean (s : str) : bool :=
  match s with
  | [] => true
  | c :: _ => negb (isspace_char c)
  end.

Definition ends_clean (s : str) : bool := starts_clean (rev s).

(** The number a string of ASCII digits denotes. *)
Definition digit_step (a : N) (c : char) : N := (10 * a + (c - 48))%N.

Definition digits_value (s : str) : N := fold_left digit_step s 0%N.

(** What the round trip asks of a pair: a non-negative identifier and a
    text that is not empty, has no line break and is its own [strip]. *)
Definition well_formed_pair (p : Z * str) : Prop :=
  (0 <= fst p)%Z /\ snd p <> [] /\ ~ In LF (snd p) /\ strip (snd p) = snd p.

(** Reading the pair back from a record, under the key [key]. *)
Definition record_pair (key : str) (r : json) : option (Z * str) :=
  match r with
  | JObj d =>
      match dict_get d (lit "id"), dict_get d key with
      | Some (JInt i), Some (JStr t) => Some (i, t)
      | _, _ => None
      end
  | _ => None
  end.


(** ** Notions used in the further properties *)


(** A record as the dictionary literal of the parser builds it, with a
    non-negative identifier. *)
Definition is_parsed_record (lower : str -> str) (target_language : str)
    (r : json) : Prop :=
  exists i t, (0 <= i)%Z /\ r = translation_record lower target_language i t.

(** The lines of a reply that start a record. *)
Definition identifier_lines (text : str) : list str :=
  filter (fun raw => is_id_line (strip raw)) (split LF (strip text)).

(** The lines of a reply without their surrounding whitespace, blank
    lines left out. *)
Definition content_lines (text : str) : list str :=
  filter (fun l => match l with [] => false | _ => true end)
    (map strip (split LF (strip text))).

(** A line that continues a translation: not empty, no whitespace at
    either end, no line break, and not an identifier line. *)
Definition continuation_line (l : str) : Prop :=
  l <> [] /\ starts_clean l = true /\ ends_clean l = true /\ ~ In LF l
  /\ is_id_line l = false.

(** What the parser knows between two lines. *)
Definition parser_state_ok (lower : str -> str) (target_language : str)
    (st : parser_state) : Prop :=
  (forall i, current_id st = Some i ->
             (0 <= i)%Z /\ current_translation st <> [])
  /\ Forall (is_parsed_record lower target_language) (translations st).

(** Replies used by the examples. *)
Definition reply_with_preamble : str :=
  lit "Here you are:" ++ [LF] ++ lit "  7: deux lignes  " ++ [LF; LF]
  ++ lit "de texte" ++ [LF] ++ lit "8:".

Definition reply_without_preamble : str :=
  lit "7: deux lignes" ++ [LF] ++ lit "de texte" ++ [LF] ++ lit "8:".

Definition reply_indented : str :=
  lit "  7: deux lignes  " ++ [LF; LF] ++ lit "   de texte" ++ [LF; LF]
  ++ lit "8:" ++ [LF].

Definition sample_continuations : list str := [lit "note: suite"; lit "et fin"].


(** Two keyed names in the order of their keys. *)
Definition key_le (a b : Z * str) : Prop := (fst a <= fst b)%Z.

(** The chunk the loop takes at index [i]. *)
Definition chunk_at (hadiths : list hadith) (batch_size i : nat) : list hadith :=
  slice hadiths i (Nat.min (i + batch_size) (length hadiths)).

(** A directory with files out of order and a file that is no chunk. *)
Definition sample_directory : directory :=
  [(lit "batch_10.json", Valid (JArr []));
   (lit "readme.txt", Corrupt);
   (lit "batch_2.json", Valid (JArr []))].

(** A world whose output directory holds a stray JSON file. *)
Definition world_with_notes : world :=
  World [(lit "notes.json", Valid (JArr []))] [] 0 None.

(** A service that answers a single chunk of twenty. *)
Definition service_of_twenty (k : nat) (contents : list json) : result str :=
  Ok (sample_reply 1 20).

(** * Properties *)

(** ** Facts about Python text *)

Module PyFacts.

Lemma str_eqb_eq (a b : str) : str_eqb a b = true <-> a = b.
Proof.
  unfold str_eqb. destruct (list_eq_dec N.eq_dec a b); split; congruence.
Qed.

Lemma str_eqb_refl (a : str) : str_eqb a a = true.
Proof. apply str_eqb_eq. reflexivity. Qed.

Lemma str_eqb_neq (a b : str) : a <> b -> str_eqb a b = false.
Proof.
  intros H. unfold str_eqb. destruct (list_eq_dec N.eq_dec a b); congruence.
Qed.

Lemma ascii_digit_decimal (c : char) :
  ascii_digit c -> decimal_value c = Some (c - 48)%N.
Proof.
  intros [H1 H2].
  change (decimal_value c)
    with (if in_range c 48 (48 + 9) then Some (c - 48)%N
          else find_decimal (tl decimal_zeros) c).
  unfold in_range.
  destruct (N.leb_spec 48 c); [| lia].
  destruct (N.leb_spec c (48 + 9)); [reflexivity | lia].
Qed.

Lemma ascii_digit_isdigit (c : char) : ascii_digit c -> isdigit_char c = true.
Proof.
  intros H. unfold isdigit_char. rewrite (ascii_digit_decimal H). reflexivity.
Qed.

Lemma in_range_false (c lo hi : N) :
  (c < lo \/ hi < c)%N -> in_range c lo hi = false.
Proof.
  intros H. unfold in_range.
  destruct (N.leb_spec lo c); destruct (N.leb_spec c hi); simpl; try reflexivity; lia.
Qed.

Lemma ascii_digit_not_space (c : char) : ascii_digit c -> isspace_char c = false.
Proof.
  intros [H1 H2]. unfold isspace_char, in_ranges, space_ranges. simpl.
  repeat (rewrite in_range_false by lia; simpl). reflexivity.
Qed.

Lemma ascii_digit_neq (c d : char) :
  ascii_digit c -> (d < 48 \/ 57 < d)%N -> (c =? d)%N = false.
Proof. intros [H1 H2] H. apply N.eqb_neq. lia. Qed.

(** *** strip *)

Lemma lstrip_clean (s : str) : starts_clean s = true -> lstrip s = s.
Proof.
  destruct s as [| c s]; simpl; [reflexivity |].
  destruct (isspace_char c); simpl; [discriminate | reflexivity].
Qed.

Lemma rstrip_clean (s : str) : ends_clean s = true -> rstrip s = s.
Proof.
  intros H. unfold rstrip. rewrite lstrip_clean by exact H. apply rev_involutive.
Qed.

Lemma strip_clean (s : str) :
  starts_clean s = true -> ends_clean s = true -> strip s = s.
Proof.
  intros H1 H2. unfold strip. rewrite (lstrip_clean _ H1). apply rstrip_clean, H2.
Qed.

Lemma lstrip_length (s : str) : length (lstrip s) <= length s.
Proof.
  induction s as [| c s IH]; simpl; [lia |].
  destruct (isspace_char c); simpl; lia.
Qed.

Lemma lstrip_shorter (s : str) :
  starts_clean s = false -> length (lstrip s) < length s.
Proof.
  destruct s as [| c s]; simpl; [discriminate |].
  destruct (isspace_char c); simpl; [| discriminate].
  intros _. pose proof (lstrip_length s). lia.
Qed.

Lemma rstrip_length (s : str) : length (rstrip s) <= length s.
Proof.
  unfold rstrip. rewrite length_rev.
  pose proof (lstrip_length (rev s)) as H. rewrite length_rev in H. exact H.
Qed.

Lemma rstrip_shorter (s : str) :
  ends_clean s = false -> length (rstrip s) < length s.
Proof.
  intros H. unfold rstrip. rewrite length_rev.
  pose proof (lstrip_shorter _ H) as H'. rewrite length_rev in H'. exact H'.
Qed.

(** A text equal to its own [strip] neither starts nor ends with
    whitespace. *)
Lemma strip_fixed (s : str) :
  strip s = s -> starts_clean s = true /\ ends_clean s = true.
Proof.
  intros H.
  assert (Hl : starts_clean s = true).
  { destruct (starts_clean s) eqn:E; [reflexivity |].
    pose proof (lstrip_shorter _ E) as H1.
    pose proof (rstrip_length (lstrip s)) as H2.
    unfold strip in H. rewrite H in H2. lia. }
  split; [exact Hl |].
  destruct (ends_clean s) eqn:E; [reflexivity |].
  pose proof (rstrip_shorter _ E) as H1.
  unfold strip in H. rewrite (lstrip_clean _ Hl) in H. rewrite H in H1. lia.
Qed.

Lemma starts_clean_app (a b : str) :
  a <> [] -> starts_clean a = true -> starts_clean (a ++ b) = true.
Proof. destruct a; simpl; [congruence | auto]. Qed.

Lemma ends_clean_app (a b : str) :
  b <> [] -> ends_clean b = true -> ends_clean (a ++ b) = true.
Proof.
  intros Hb H. unfold ends_clean in *. rewrite rev_app_distr.
  apply starts_clean_app; [| exact H].
  intros E. apply Hb. rewrite <- (rev_involutive b), E. reflexivity.
Qed.

Lemma strip_leading_space (s : str) :
  starts_clean s = true -> ends_clean s = true -> strip (SPACE :: s) = s.
Proof.
  intros H1 H2. unfold strip. change (lstrip (SPACE :: s)) with (lstrip s).
  rewrite (lstrip_clean _ H1). apply rstrip_clean, H2.
Qed.

(** *** split, join, contains *)

Lemma split_app (c : char) (a b : str) :
  ~ In c a -> split c (a ++ c :: b) = a :: split c b.
Proof.
  induction a as [| x a IH]; simpl; intros H.
  - rewrite N.eqb_refl. reflexivity.
  - destruct (N.eqb_spec x c) as [E | E]; [exfalso; auto |].
    rewrite IH by tauto. reflexivity.
Qed.

Lemma split_none (c : char) (a : str) : ~ In c a -> split c a = [a].
Proof.
  induction a as [| x a IH]; simpl; intros H; [reflexivity |].
  destruct (N.eqb_spec x c) as [E | E]; [exfalso; auto |].
  rewrite IH by tauto. reflexivity.
Qed.

Lemma split_join (c : char) (lines : list str) :
  lines <> [] -> Forall (fun l => ~ In c l) lines ->
  split c (join [c] lines) = lines.
Proof.
  induction lines as [| l ls IH]; intros Hne H; [congruence |].
  inversion H as [| ? ? Hl Hls]; subst.
  destruct ls as [| l' ls'].
  - simpl. apply split_none, Hl.
  - change (join [c] (l :: l' :: ls')) with (l ++ c :: join [c] (l' :: ls')).
    rewrite split_app by exact Hl. rewrite IH; [reflexivity | discriminate | exact Hls].
Qed.

Lemma split_once_app (c : char) (a b : str) :
  ~ In c a -> split_once c (a ++ c :: b) = [a; b].
Proof.
  induction a as [| x a IH]; simpl; intros H.
  - rewrite N.eqb_refl. reflexivity.
  - destruct (N.eqb_spec x c) as [E | E]; [exfalso; auto |].
    rewrite IH by tauto. reflexivity.
Qed.

Lemma contains_app (c : char) (a b : str) : contains c (a ++ c :: b) = true.
Proof.
  unfold contains. rewrite existsb_app. simpl. rewrite N.eqb_refl.
  apply orb_true_iff. right. reflexivity.
Qed.

(** *** Printing and reading integers *)

Lemma digits_fuel_acc (fuel : nat) (n : N) (acc : str) :
  digits_fuel fuel n acc = digits_fuel fuel n [] ++ acc.
Proof.
  revert n acc. induction fuel as [| fuel IH]; intros n acc; simpl; [reflexivity |].
  destruct (n / 10 =? 0)%N; [reflexivity |].
  rewrite IH. rewrite (IH _ [_]). rewrite <- app_assoc. reflexivity.
Qed.

Lemma log2_div10 (n : N) :
  (n / 10 <> 0)%N -> (N.log2 (n / 10) < N.log2 n)%N.
Proof.
  intros H.
  assert (Hm : (0 < n / 10)%N) by (apply N.neq_0_lt_0; exact H).
  assert (H2 : (2 * (n / 10) <= n)%N).
  { pose proof (N.Div0.mul_div_le n 10). lia. }
  pose proof (N.log2_double _ Hm) as Hd.
  pose proof (N.log2_le_mono _ _ H2) as Hle. lia.
Qed.

Lemma digits_fuel_spec (fuel : nat) (n : N) :
  N.to_nat (N.log2 n) <= fuel ->
  let s := digits_fuel (S fuel) n [] in
  s <> [] /\ Forall ascii_digit s /\ digits_value s = n.
Proof.
  revert n. induction fuel as [| fuel IH]; intros n Hf.
  - assert (Hn : (n / 10 = 0)%N).
    { destruct (N.eq_dec (n / 10) 0) as [E | E]; [exact E |].
      pose proof (log2_div10 _ E). lia. }
    change (digits_fuel 1 n [])
      with (if (n / 10 =? 0)%N then [(48 + n mod 10)%N] else [(48 + n mod 10)%N]).
    rewrite Hn, N.eqb_refl.
    assert (Hlt : (n < 10)%N) by (apply N.div_small_iff; [discriminate | exact Hn]).
    rewrite (N.mod_small _ _ Hlt).
    repeat split; [discriminate | | ].
    + constructor; [unfold ascii_digit; clear - Hlt; lia | constructor].
    + unfold digits_value, digit_step. cbn [fold_left]. clear - Hlt. lia.
  - change (digits_fuel (S (S fuel)) n [])
      with (if (n / 10 =? 0)%N then [(48 + n mod 10)%N]
            else digits_fuel (S fuel) (n / 10) [(48 + n mod 10)%N]).
    pose proof (N.mod_upper_bound n 10 ltac:(discriminate)) as Hmod.
    destruct (N.eqb_spec (n / 10) 0) as [E | E].
    + assert (Hlt : (n < 10)%N) by (apply N.div_small_iff; [discriminate | exact E]).
      rewrite (N.mod_small _ _ Hlt).
      repeat split; [discriminate | | ].
      * constructor; [unfold ascii_digit; clear - Hlt; lia | constructor].
      * unfold digits_value, digit_step. cbn [fold_left]. clear - Hlt. lia.
    + rewrite digits_fuel_acc.
      destruct (IH (n / 10)%N) as (Hne & Hall & Hval).
      { pose proof (log2_div10 _ E) as Hlog. revert Hf Hlog. clear.
        generalize (N.log2 (n / 10)) (N.log2 n). intros a b Hf Hlog. lia. }
      repeat split.
      * intros Heq. apply app_eq_nil in Heq. destruct Heq; discriminate.
      * apply Forall_app. split; [exact Hall |].
        constructor; [| constructor]. unfold ascii_digit. revert Hmod. clear.
        generalize (n mod 10)%N. intros m Hm. lia.
      * unfold digits_value in *. rewrite fold_left_app. cbn [fold_left].
        rewrite Hval. unfold digit_step.
        pose proof (N.div_mod n 10 ltac:(discriminate)) as Hdm.
        replace (48 + n mod 10 - 48)%N with (n mod 10)%N
          by (clear; generalize (n mod 10)%N; intros m; lia).
        symmetry. exact Hdm.
Qed.

Lemma str_of_N_spec (n : N) :
  str_of_N n <> [] /\ Forall ascii_digit (str_of_N n)
  /\ digits_value (str_of_N n) = n.
Proof. apply digits_fuel_spec. lia. Qed.

Lemma int_body_digits (s : str) (a : N) (b : bool) :
  Forall ascii_digit s -> (s <> [] \/ b = true) ->
  int_body a b s = Some (fold_left digit_step s a).
Proof.
  revert a b. induction s as [| c s IH]; intros a b Hall Hne.
  - destruct Hne as [Hne | Hb]; [congruence | subst; reflexivity].
  - inversion Hall as [| ? ? Hc Hs]; subst. simpl.
    rewrite (ascii_digit_neq Hc) by (unfold UNDERSCORE; lia).
    rewrite (ascii_digit_decimal Hc). apply IH; auto.
Qed.

Lemma digits_clean (s : str) :
  Forall ascii_digit s -> starts_clean s = true /\ ends_clean s = true.
Proof.
  intros H.
  assert (G : forall t, Forall ascii_digit t -> starts_clean t = true).
  { intros [| c t] Ht; [reflexivity |]. inversion Ht; subst. simpl.
    rewrite ascii_digit_not_space by assumption. reflexivity. }
  split; [apply G, H |]. apply G. apply Forall_rev, H.
Qed.

(** [int(str(n))] gives [n] back for a non-negative [n]. *)
Lemma int_str_of_N (n : N) : int (str_of_N n) = Some (Z.of_N n).
Proof.
  destruct (str_of_N_spec n) as (Hne & Hall & Hval).
  destruct (digits_clean Hall) as [Hs He].
  unfold int. rewrite (strip_clean _ Hs He).
  remember (str_of_N n) as d eqn:E. destruct d as [| c s]; [congruence |].
  assert (Hc : ascii_digit c) by (inversion Hall; assumption).
  rewrite (ascii_digit_neq Hc) by (unfold MINUS; lia).
  rewrite (ascii_digit_neq Hc) by (unfold PLUS; lia).
  rewrite (@int_body_digits (c :: s) 0%N false Hall) by (left; discriminate).
  unfold digits_value in Hval. rewrite Hval. reflexivity.
Qed.

Lemma isdigit_str_of_N (n : N) : isdigit (str_of_N n) = true.
Proof.
  destruct (str_of_N_spec n) as (Hne & Hall & _).
  unfold isdigit. destruct (str_of_N n) as [| c s]; [congruence |].
  apply forallb_forall. intros x Hx.
  apply ascii_digit_isdigit. rewrite Forall_forall in Hall. auto.
Qed.

Lemma str_of_N_no_char (n : N) (c : char) :
  (c < 48 \/ 57 < c)%N -> ~ In c (str_of_N n).
Proof.
  intros Hc Hin. destruct (str_of_N_spec n) as (_ & Hall & _).
  rewrite Forall_forall in Hall. specialize (Hall _ Hin).
  unfold ascii_digit in Hall. lia.
Qed.

End PyFacts.

(** ** The response parser *)

Section ParserFacts.

Import PyFacts.

Variable lower : str -> str.
Variable target_language : str.

Local Abbreviation record :=
  (fun p : Z * str => translation_record lower target_language (fst p) (snd p)).

Lemma str_of_Z_nonneg (z : Z) : (0 <= z)%Z -> str_of_Z z = str_of_N (Z.to_N z).
Proof. destruct z; simpl; [reflexivity | reflexivity | lia]. Qed.

Lemma reply_line_shape (p : Z * str) :
  (0 <= fst p)%Z ->
  reply_line p = str_of_N (Z.to_N (fst p)) ++ COLON :: SPACE :: snd p.
Proof. intros H. unfold reply_line. rewrite (str_of_Z_nonneg H). reflexivity. Qed.

Lemma reply_line_clean (p : Z * str) :
  well_formed_pair p ->
  reply_line p <> [] /\ starts_clean (reply_line p) = true
  /\ ends_clean (reply_line p) = true /\ ~ In LF (reply_line p).
Proof.
  intros (Hid & Hne & Hlf & Hstrip).
  rewrite (reply_line_shape _ Hid).
  destruct (str_of_N_spec (Z.to_N (fst p))) as (Hd & Hall & _).
  destruct (digits_clean Hall) as [Hs _].
  destruct (strip_fixed Hstrip) as [_ Hte].
  repeat split.
  - intros E. apply app_eq_nil in E. destruct E. contradiction.
  - apply starts_clean_app; assumption.
  - change (COLON :: SPACE :: snd p) with ([COLON; SPACE] ++ snd p).
    rewrite app_assoc. apply ends_clean_app; assumption.
  - intros Hin. apply in_app_or in Hin. destruct Hin as [Hin | Hin].
    + revert Hin. apply str_of_N_no_char. unfold LF. lia.
    + simpl in Hin. destruct Hin as [E | [E | Hin]]; [discriminate | discriminate | auto].
Qed.

Lemma match_nonempty (A B : Type) (l : list A) (x y : B) :
  l <> [] -> match l with [] => x | _ :: _ => y end = y.
Proof. destruct l; [congruence | reflexivity]. Qed.

(** An identifier line flushes the record before it and starts the
    next one with the text after the colon. *)
Lemma parse_line_reply (st : parser_state) (p : Z * str) :
  well_formed_pair p ->
  parse_line lower target_language st (reply_line p)
  = Ok (ParserState (flush lower target_language st) (Some (fst p)) [snd p]).
Proof.
  intros Hp. destruct (reply_line_clean Hp) as (Hne & Hs & He & _).
  destruct Hp as (Hid & Htne & Hlf & Hstrip).
  unfold parse_line. rewrite (strip_clean _ Hs He).
  rewrite (match_nonempty _ _ Hne).
  rewrite (reply_line_shape _ Hid).
  set (d := str_of_N (Z.to_N (fst p))).
  destruct (str_of_N_spec (Z.to_N (fst p))) as (Hd & Hall & _). fold d in Hd, Hall.
  destruct (digits_clean Hall) as [Hds Hde].
  assert (Hcolon : ~ In COLON d).
  { apply str_of_N_no_char. unfold COLON. lia. }
  unfold is_id_line. rewrite contains_app, (@split_app COLON d _ Hcolon).
  cbn [hd andb]. rewrite (strip_clean _ Hds Hde).
  unfold d at 1. rewrite isdigit_str_of_N.
  rewrite (@split_once_app COLON d _ Hcolon). cbn [hd length nth Nat.ltb Nat.leb].
  rewrite (strip_clean _ Hds Hde). unfold d. rewrite int_str_of_N.
  destruct (strip_fixed Hstrip) as [Hts Hte].
  rewrite (strip_leading_space _ Hts Hte).
  cbn [of_option bind]. rewrite Z2N.id by exact Hid. reflexivity.
Qed.

Lemma flush_after_line (ts : list json) (p : Z * str) :
  flush lower target_language (ParserState ts (Some (fst p)) [snd p])
  = ts ++ [record p].
Proof. reflexivity. Qed.

Lemma parse_lines_reply (pairs : list (Z * str)) (st : parser_state) :
  Forall well_formed_pair pairs ->
  exists st',
    parse_lines lower target_language st (map reply_line pairs) = Ok st'
    /\ flush lower target_language st'
       = flush lower target_language st ++ map record pairs.
Proof.
  revert st. induction pairs as [| p ps IH]; intros st H.
  - exists st. split; [reflexivity |]. simpl. rewrite app_nil_r. reflexivity.
  - inversion H as [| ? ? Hp Hps]; subst.
    destruct (IH (ParserState (flush lower target_language st) (Some (fst p)) [snd p]) Hps)
      as (st' & Hrun & Hflush).
    exists st'. split.
    + cbn [map parse_lines]. rewrite (parse_line_reply st Hp). exact Hrun.
    + rewrite Hflush, flush_after_line. rewrite <- app_assoc. reflexivity.
Qed.

Lemma join_lines_clean (lines : list str) :
  lines <> [] ->
  Forall (fun l => l <> [] /\ starts_clean l = true /\ ends_clean l = true) lines ->
  starts_clean (join [LF] lines) = true /\ ends_clean (join [LF] lines) = true.
Proof.
  induction lines as [| l ls IH]; intros Hne H; [congruence |].
  inversion H as [| ? ? (Hl & Hs & He) Hls]; subst.
  destruct ls as [| l' ls'].
  - simpl. auto.
  - change (join [LF] (l :: l' :: ls')) with (l ++ [LF] ++ join [LF] (l' :: ls')).
    assert (Hne' : l' :: ls' <> []) by discriminate.
    destruct (IH Hne' Hls) as [_ He'].
    split.
    + apply starts_clean_app; assumption.
    + rewrite app_assoc. apply ends_clean_app; [| exact He'].
      inversion Hls as [| ? ? (Hl' & _) _]; subst.
      destruct l'; [congruence |]. destruct ls'; simpl; [discriminate |].
      discriminate.
Qed.

Lemma record_pair_translation (i : Z) (t : str) :
  lower target_language <> lit "id" ->
  record_pair (lower target_language)
    (translation_record lower target_language i t) = Some (i, t).
Proof.
  intros Hkey. unfold translation_record, record_pair. cbn [dict_set].
  rewrite (str_eqb_neq (not_eq_sym Hkey)). cbn [dict_get].
  rewrite str_eqb_refl, (str_eqb_neq (not_eq_sym Hkey)), str_eqb_refl. reflexivity.
Qed.

End ParserFacts.

(** *** Claims about the parser *)

(** C2, as amended: for every list of pairs whose identifiers are
    non-negative integers and whose texts are single-line, trimmed and
    not empty, parsing the lines ["{id}: {text}"] joined by line breaks
    returns one record per pair, in order, built from that identifier
    and that text; when the language key is not ["id"] the pairs can be
    read back from the records. *)
Theorem parser_round_trip (lower : str -> str) (target_language : str)
    (pairs : list (Z * str)) :
  Forall well_formed_pair pairs ->
  parse_gemini_response lower target_language (reply_of_pairs pairs)
  = Ok (map (fun p => translation_record lower target_language (fst p) (snd p)) pairs)
  /\ (lower target_language <> lit "id" ->
      map (record_pair (lower target_language))
          (map (fun p => translation_record lower target_language (fst p) (snd p)) pairs)
      = map Some pairs).
Proof.
  intros H. split.
  - unfold parse_gemini_response, reply_of_pairs.
    destruct pairs as [| p ps].
    + reflexivity.
    + assert (Hlines : Forall (fun l => l <> [] /\ starts_clean l = true
                                 /\ ends_clean l = true)
                         (map reply_line (p :: ps))).
      { apply Forall_map. eapply Forall_impl; [| exact H].
        intros q Hq. destruct (reply_line_clean Hq) as (A & B & C & _). auto. }
      assert (Hlf : Forall (fun l => ~ In LF l) (map reply_line (p :: ps))).
      { apply Forall_map. eapply Forall_impl; [| exact H].
        intros q Hq. destruct (reply_line_clean Hq) as (_ & _ & _ & D). exact D. }
      assert (Hne : map reply_line (p :: ps) <> []) by discriminate.
      destruct (join_lines_clean Hne Hlines) as [Hs He].
      rewrite (PyFacts.strip_clean _ Hs He).
      rewrite PyFacts.split_join; [| discriminate | exact Hlf].
      destruct (parse_lines_reply lower target_language (ParserState [] None []) H)
        as (st' & Hrun & Hflush).
      rewrite Hrun. cbn [bind]. rewrite Hflush. reflexivity.
  - intros Hkey. rewrite map_map. apply map_ext. intros [i t].
    apply record_pair_translation, Hkey.
Qed.

Lemma parser_round_trip_witness :
  Forall well_formed_pair sample_pairs
  /\ parse_gemini_response lower_ascii (lit "French") (reply_of_pairs sample_pairs)
     = Ok (map (fun p => translation_record lower_ascii (lit "French") (fst p) (snd p))
             sample_pairs).
Proof.
  assert (H : Forall well_formed_pair sample_pairs).
  { repeat constructor; try discriminate; try (cbn; lia);
      try (cbn; intuition discriminate). }
  split; [exact H |].
  exact (proj1 (parser_round_trip lower_ascii (lit "French") H)).
Defined.

(** C2 as stated fails for a negative identifier: the line ["-1: salam"]
    is not an identifier line, and nothing is returned. *)
Lemma parser_round_trip_negative_id :
  Forall (fun p => text_as_described (snd p)) negative_pairs
  /\ parse_gemini_response lower_ascii (lit "French") (reply_of_pairs negative_pairs)
     = Ok []
  /\ parse_gemini_response lower_ascii (lit "French") (reply_of_pairs negative_pairs)
     <> Ok (map (fun p => translation_record lower_ascii (lit "French") (fst p) (snd p))
              negative_pairs).
Proof.
  split; [| split].
  - repeat constructor; try discriminate; cbn; intuition discriminate.
  - reflexivity.
  - discriminate.
Qed.

(** C6: an identifier line with nothing after the colon and nothing
    after it in the reply still yields a record, with an empty text:
    the list holding the empty text is not empty. *)
Theorem parser_emits_empty_record (lower : str -> str) (target_language : str) :
  parse_gemini_response lower target_language (lit "5:")
  = Ok [translation_record lower target_language 5 []].
Proof. reflexivity. Qed.

(** C7: on a reply whose identifier is written with a digit that is not
    decimal (superscript two), the guard of the parser lets the line
    through and the conversion to an integer raises [ValueError]. *)
Theorem parser_raises_on_superscript_digit (lower : str -> str)
    (target_language : str) :
  isdigit [SUPERSCRIPT_TWO] = true
  /\ parse_gemini_response lower target_language (SUPERSCRIPT_TWO :: lit ": x")
     = Raise ValueError.
Proof. split; reflexivity. Qed.

(** *** The prompt builder *)



(** ** Combination *)

Section CombineFacts.

Lemma log_all_nil (w : world) : log_all [] w = w.
Proof. destruct w. unfold log_all. simpl. rewrite app_nil_r. reflexivity. Qed.

Lemma print_log_all (e : event) (evs : list event) (w : world) :
  print e (log_all evs w) = log_all (evs ++ [e]) w.
Proof. unfold print, log_all. simpl. rewrite <- app_assoc. reflexivity. Qed.

Lemma combine_fold (d : directory) (names : list str) (acc : list json)
    (evs : list event) (w : world) :
  fold_left (combine_file d) names (acc, log_all evs w)
  = (acc ++ flat_map (file_contribution d) names,
     log_all (evs ++ map ErrorReading (filter (is_corrupt d) names)) w).
Proof.
  revert acc evs. induction names as [| n ns IH]; intros acc evs.
  - simpl. rewrite !app_nil_r. reflexivity.
  - cbn [fold_left flat_map filter].
    unfold combine_file at 2, file_contribution at 1, is_corrupt at 1.
    destruct (read_file d n) as [[j |] |]; cbn [fst snd].
    + rewrite IH, <- app_assoc. reflexivity.
    + rewrite print_log_all, IH. cbn [map app]. rewrite <- app_assoc.
      reflexivity.
    + rewrite IH. reflexivity.
Qed.

Lemma batch_contribution_list (items : list json) :
  batch_contribution (JArr items)
  = if length items <? 20 then removelast items else items.
Proof.
  destruct items as [| x items]; [reflexivity |]. reflexivity.
Qed.

End CombineFacts.


(** C10: a file holding an empty list, or a JSON value that is not a
    list, contributes nothing; and the only messages combination
    prints are the ones for the files that do not decode. *)
Theorem combine_skips_silently (w : world) :
  (forall j : json,
     match j with
     | JArr (_ :: _) => True
     | _ => batch_contribution j = []
     end)
  /\ snd (combine_batches_except_last w)
     = match batch_files (files w) with
       | Ok names =>
           log_all (map ErrorReading (filter (is_corrupt (files w)) names)) w
       | Raise _ => w
       end.
Proof.
  split.
  - intros [| b | z | s | [| x items] | d]; reflexivity || exact I.
  - unfold combine_batches_except_last.
    destruct (batch_files (files w)) as [names | e]; [| reflexivity].
    cbn [snd]. rewrite <- (log_all_nil w) at 2.
    rewrite combine_fold. reflexivity.
Qed.

(** ** Missing records *)

Section MissingFacts.

Lemma record_ids_all (translated : list json) :
  Forall (fun r => exists v, record_id r = Ok v) translated ->
  exists ids, record_ids translated = Ok ids
              /\ Forall2 (fun r v => record_id r = Ok v) translated ids.
Proof.
  induction 1 as [| r rs [v Hv] _ (ids & Hids & Hall)].
  - exists []. split; [reflexivity | constructor].
  - exists (v :: ids). split.
    + cbn [record_ids]. rewrite Hv, Hids. reflexivity.
    + constructor; assumption.
Qed.

Lemma in_ids_translated (z : Z) (translated ids : list json) :
  Forall2 (fun r v => record_id r = Ok v) translated ids ->
  in_ids z ids = true <-> id_translated z translated.
Proof.
  intros H. unfold in_ids, id_translated. rewrite existsb_exists.
  induction H as [| r v rs vs Hrv Hrest IH].
  - split; [intros (x & [] & _) | intros (r & v & [] & _)].
  - split.
    + intros (x & [Hx | Hx] & He).
      * subst x. exists r, v. simpl. auto.
      * destruct (proj1 IH (ex_intro _ x (conj Hx He))) as (r' & v' & Hin & Hr & Heq).
        exists r', v'. simpl. auto.
    + intros (r' & v' & [Hin | Hin] & Hr & Heq).
      * subst r'. rewrite Hrv in Hr. injection Hr as <-. exists v. simpl. auto.
      * destruct (proj2 IH (ex_intro _ r' (ex_intro _ v' (conj Hin (conj Hr Heq)))))
          as (x & Hx & He).
        exists x. simpl. auto.
Qed.

End MissingFacts.

(** C4: when every translated record has an identifier, the missing
    records are exactly the input records whose identifier does not
    occur among the identifiers of the translated records, in input
    order; for input identifiers 1 to 5 and translated identifiers 1,
    2 and 4 they are the records 3 and 5. *)
Theorem missing_are_untranslated (original_hadiths : list hadith)
    (translated : list json) :
  Forall (fun r => exists v, record_id r = Ok v) translated ->
  (exists missing,
     find_missing_hadiths original_hadiths translated = Ok missing
     /\ (forall h, In h missing
                   <-> In h original_hadiths /\ ~ id_translated (id h) translated)
     /\ exists keep, missing = filter keep original_hadiths)
  /\ find_missing_hadiths (sample_hadiths 5) (sample_records [1; 2; 4]%Z)
     = Ok [sample_hadith 3; sample_hadith 5].
Proof.
  intros H. split; [| reflexivity].
  destruct (record_ids_all H) as (ids & Hids & Hall).
  unfold find_missing_hadiths. rewrite Hids. cbn [bind].
  eexists. split; [reflexivity |]. split.
  - intros h. rewrite filter_In. rewrite negb_true_iff.
    rewrite <- (in_ids_translated (id h) Hall).
    destruct (in_ids (id h) ids); intuition congruence.
  - eexists. reflexivity.
Qed.

Lemma missing_are_untranslated_witness :
  Forall (fun r => exists v, record_id r = Ok v) (sample_records [1; 2; 4]%Z)
  /\ exists missing,
       find_missing_hadiths (sample_hadiths 5) (sample_records [1; 2; 4]%Z) = Ok missing
       /\ (forall h, In h missing
                     <-> In h (sample_hadiths 5)
                         /\ ~ id_translated (id h) (sample_records [1; 2; 4]%Z)).
Proof.
  assert (H : Forall (fun r => exists v, record_id r = Ok v)
                (sample_records [1; 2; 4]%Z)).
  { repeat constructor; eexists; reflexivity. }
  split; [exact H |].
  destruct (proj1 (missing_are_untranslated (sample_hadiths 5) H))
    as (missing & Hm & Hiff & _).
  exists missing. split; assumption.
Defined.

(** ** The chunk loop *)

Section LoopFacts.

Variable lower : str -> str.
Variable target_language : str.
Variable generate_content : nat -> list json -> result str.
Variable disk : nat -> write_outcome.

Local Abbreviation try_batch' :=
  (try_batch lower target_language generate_content disk).
Local Abbreviation translate_batch' :=
  (translate_batch lower target_language generate_content disk).

(** The three ways the body of the [try] can end. *)
Lemma try_batch_cases (hadiths : list hadith) (batch_size : nat)
    (st : loop_state) (i : nat) :
  let w := next_request (now st) in
  let name := batch_file_name (batch_num st) in
  (exists e, try_batch' hadiths batch_size st i = (Raise e, w))
  \/ (exists e, disk (attempts (now st)) = DumpFails
                /\ try_batch' hadiths batch_size st i
                   = (Raise e, set_files (write_file (files w) name Corrupt) w))
  \/ (exists bt, disk (attempts (now st)) = WriteOk
                 /\ try_batch' hadiths batch_size st i
                    = (Ok bt,
                       log_all [SavedBatch (batch_num st) (path_join output_dir name);
                                ProcessedBatch (batch_num st) (length bt); Sleep 3]
                         (set_files (write_file (files w) name (Valid (JArr bt))) w))).
Proof.
  intros w name. unfold try_batch.
  destruct (generate_content _ _) as [text | e]; [| left; eauto].
  destruct (parse_gemini_response _ _ _) as [bt | e]; [| left; eauto].
  unfold save_batch. fold w. fold name.
  destruct (disk (attempts (now st))) eqn:Hd.
  - right. right. exists bt. split; [reflexivity |].
    unfold print, log_all, set_files. simpl. rewrite <- !app_assoc. reflexivity.
  - left. eauto.
  - right. left. eauto.
Qed.

Lemma read_write_same (d : directory) (name : str) (c : file_content) :
  read_file (write_file d name c) name = Some c.
Proof.
  induction d as [| [n c'] d IH]; simpl.
  - rewrite PyFacts.str_eqb_refl. reflexivity.
  - destruct (str_eqb n name) eqn:E; simpl; rewrite E; [reflexivity | exact IH].
Qed.

Lemma read_write_other (d : directory) (name name' : str) (c : file_content) :
  name <> name' -> read_file (write_file d name' c) name = read_file d name.
Proof.
  intros Hne. induction d as [| [n c'] d IH]; simpl.
  - rewrite PyFacts.str_eqb_neq by congruence. reflexivity.
  - destruct (str_eqb n name') eqn:E; simpl.
    + apply PyFacts.str_eqb_eq in E. subst n.
      rewrite !PyFacts.str_eqb_neq by congruence. reflexivity.
    + destruct (str_eqb n name); [reflexivity | exact IH].
Qed.








End LoopFacts.




(** ** The run from end to end *)

Section EndToEnd.

Variable lower : str -> str.
Variable target_language : str.
Variable generate_content : nat -> list json -> result str.
Variable disk : nat -> write_outcome.

Lemma translate_batch_ok (hadiths : list hadith) (batch_size : nat)
    (st : loop_state) (i : nat) (recs : list json) :
  valid_reply lower target_language generate_content (attempts (now st))
    (slice hadiths i (Nat.min (i + batch_size) (length hadiths))) recs ->
  disk (attempts (now st)) = WriteOk ->
  translate_batch lower target_language generate_content disk hadiths batch_size st i
  = LoopState (acc st ++ recs) (batch_num st + 1)
      (log_all [SavedBatch (batch_num st)
                  (path_join output_dir (batch_file_name (batch_num st)));
                ProcessedBatch (batch_num st) (length recs); Sleep 3]
         (set_files (write_file (files (now st)) (batch_file_name (batch_num st))
                       (Valid (JArr recs)))
            (next_request (now st)))).
Proof.
  intros (reply & Hgen & Hparse & _) Hdisk.
  unfold translate_batch, try_batch, save_batch.
  rewrite Hgen, Hparse, Hdisk.
  unfold print, log_all, set_files. simpl. rewrite <- !app_assoc. reflexivity.
Qed.

Lemma tr_id_record_id (r : json) (z : Z) :
  tr_id r = Some z -> record_id r = Ok (JInt z).
Proof.
  destruct r as [| | | | | d]; try discriminate. simpl.
  destruct (dict_get d (lit "id")) as [[| | z' | | |] |]; try discriminate.
  intros E. injection E as ->. reflexivity.
Qed.

Lemma record_ids_of_tr_ids (recs : list json) (zs : list Z) :
  map tr_id recs = map Some zs -> record_ids recs = Ok (map JInt zs).
Proof.
  revert zs. induction recs as [| r rs IH]; intros [| z zs] H; try discriminate.
  - reflexivity.
  - simpl in H. injection H as Hr Hrs.
    cbn [record_ids map]. rewrite (@tr_id_record_id r z Hr), (IH zs Hrs). reflexivity.
Qed.

Lemma in_ids_ints (z : Z) (zs : list Z) :
  in_ids z (map JInt zs) = true <-> In z zs.
Proof.
  unfold in_ids. rewrite existsb_exists. split.
  - intros (v & Hv & He). apply in_map_iff in Hv. destruct Hv as (z' & <- & Hz').
    simpl in He. apply Z.eqb_eq in He. subst. exact Hz'.
  - intros H. exists (JInt z). split; [apply in_map, H | simpl; apply Z.eqb_refl].
Qed.

Lemma filter_none (A : Type) (p : A -> bool) (l : list A) :
  (forall x, In x l -> p x = false) -> filter p l = [].
Proof.
  induction l as [| x l IH]; intros H; [reflexivity |].
  simpl. rewrite (H x (or_introl eq_refl)). apply IH.
  intros y Hy. apply H. right. exact Hy.
Qed.

Lemma filter_every (A : Type) (p : A -> bool) (l : list A) :
  (forall x, In x l -> p x = true) -> filter p l = l.
Proof.
  induction l as [| x l IH]; intros H; [reflexivity |].
  simpl. rewrite (H x (or_introl eq_refl)). f_equal. apply IH.
  intros y Hy. apply H. right. exact Hy.
Qed.

Lemma NoDup_app_disjoint (A : Type) (l1 l2 : list A) :
  NoDup (l1 ++ l2) -> forall x, In x l1 -> ~ In x l2.
Proof.
  induction l1 as [| y l1 IH]; simpl; intros H x Hx Hx2; [contradiction |].
  inversion H as [| ? ? Hnotin Hrest]; subst.
  destruct Hx as [-> | Hx].
  - apply Hnotin. apply in_or_app. right. exact Hx2.
  - apply (IH Hrest x); assumption.
Qed.

Lemma filter_missing (a b : list hadith) :
  NoDup (map id (a ++ b)) ->
  filter (fun h => negb (in_ids (id h) (map JInt (map id a)))) (a ++ b) = b.
Proof.
  intros Hnd. rewrite filter_app.
  rewrite filter_none, filter_every; [reflexivity | |].
  - intros h Hh. apply negb_true_iff.
    destruct (in_ids (id h) (map JInt (map id a))) eqn:E; [| reflexivity].
    apply in_ids_ints in E. exfalso.
    rewrite map_app in Hnd.
    apply (@NoDup_app_disjoint _ _ _ Hnd (id h) E). apply in_map, Hh.
  - intros h Hh. apply negb_false_iff. apply in_ids_ints. apply in_map, Hh.
Qed.

Lemma removelast_map (A B : Type) (f : A -> B) (l : list A) :
  removelast (map f l) = map f (removelast l).
Proof.
  induction l as [| x l IH]; [reflexivity |].
  destruct l as [| y l]; [reflexivity |].
  change (f x :: removelast (map f (y :: l)) = f x :: map f (removelast (y :: l))).
  rewrite IH. reflexivity.
Qed.

Lemma lists_of_25 (A : Type) (l : list A) :
  length l = 25 ->
  firstn 20 l ++ removelast (skipn 20 l) = firstn 24 l
  /\ length (skipn 20 l) = 5 /\ length (skipn 24 l) = 1
  /\ length (firstn 20 l) = 20.
Proof.
  intros H. rewrite !length_skipn, length_firstn, H.
  repeat split; try reflexivity.
  do 26 (destruct l as [| ? l]; [discriminate H || reflexivity |]).
  discriminate H.
Qed.

Lemma combine_two_files (w : world) (a b : list json) :
  files w = [(batch_file_name 1, Valid (JArr a)); (batch_file_name 2, Valid (JArr b))] ->
  combine_batches_except_last w
  = (Ok (batch_contribution (JArr a) ++ batch_contribution (JArr b)), w).
Proof.
  intros H. unfold combine_batches_except_last. rewrite H.
  change (batch_files [(batch_file_name 1, Valid (JArr a)); (batch_file_name 2, Valid (JArr b))])
    with (Ok [batch_file_name 1; batch_file_name 2]).
  reflexivity.
Qed.

End EndToEnd.

(** C1: a run on 25 records with distinct identifiers, from an empty
    output directory, where the three requests get a valid and complete
    reply and the writes succeed.  The first pass leaves the files
    [batch_1.json] with 20 records and [batch_2.json] with 5;
    combination gives the 20 and the first 4 of the 5, that is 24;
    the missing records are the last input record alone; the second
    pass is announced with chunk size 5, and the final file holds the
    24 records followed by the one of the second pass, 25 in all. *)
Theorem twenty_five_records_end_to_end (lower : str -> str) (target_language : str)
    (generate_content : nat -> list json -> result str)
    (disk : nat -> write_outcome) (hadiths : list hadith) (w : world)
    (recs1 recs2 recs3 : list json) :
  length hadiths = 25 ->
  NoDup (map id hadiths) ->
  files w = [] ->
  disk (attempts w) = WriteOk ->
  disk (S (attempts w)) = WriteOk ->
  disk (S (S (attempts w))) = WriteOk ->
  valid_reply lower target_language generate_content (attempts w)
    (firstn 20 hadiths) recs1 ->
  valid_reply lower target_language generate_content (S (attempts w))
    (skipn 20 hadiths) recs2 ->
  valid_reply lower target_language generate_content (S (S (attempts w)))
    (skipn 24 hadiths) recs3 ->
  let pass1 := translate_hadiths lower target_language generate_content disk
                 hadiths 20 (print StartingInitialTranslation w) in
  let run := process_all lower target_language generate_content disk hadiths w in
  files (snd pass1)
  = [(batch_file_name 1, Valid (JArr recs1)); (batch_file_name 2, Valid (JArr recs2))]
  /\ length recs1 = 20 /\ length recs2 = 5
  /\ fst (combine_batches_except_last (print CombiningBatches (snd pass1)))
     = Ok (recs1 ++ removelast recs2)
  /\ length (recs1 ++ removelast recs2) = 24
  /\ find_missing_hadiths hadiths (recs1 ++ removelast recs2) = Ok (skipn 24 hadiths)
  /\ length (skipn 24 hadiths) = 1
  /\ In (ProcessingMissing 5) (console (snd run))
  /\ fst run = Ok tt
  /\ final_file (snd run) = Some ((recs1 ++ removelast recs2) ++ recs3)
  /\ length ((recs1 ++ removelast recs2) ++ recs3) = 25.
Proof.
  intros Hlen Hnd Hfiles Hd1 Hd2 Hd3 Hr1 Hr2 Hr3. cbn zeta.
  destruct (lists_of_25 hadiths Hlen) as (Hsplit & Hl20 & Hl24 & Hf20).
  assert (Hids1 : map tr_id recs1 = map Some (map id (firstn 20 hadiths))).
  { destruct Hr1 as (_ & _ & _ & H). rewrite H, map_map. reflexivity. }
  assert (Hids2 : map tr_id recs2 = map Some (map id (skipn 20 hadiths))).
  { destruct Hr2 as (_ & _ & _ & H). rewrite H, map_map. reflexivity. }
  assert (Hids3 : map tr_id recs3 = map Some (map id (skipn 24 hadiths))).
  { destruct Hr3 as (_ & _ & _ & H). rewrite H, map_map. reflexivity. }
  assert (Hn1 : length recs1 = 20).
  { rewrite <- (length_map tr_id), Hids1, !length_map. exact Hf20. }
  assert (Hn2 : length recs2 = 5).
  { rewrite <- (length_map tr_id), Hids2, !length_map. exact Hl20. }
  assert (Hn3 : length recs3 = 1).
  { rewrite <- (length_map tr_id), Hids3, !length_map. exact Hl24. }
  destruct w as [f c k ff]. cbn [files attempts] in *. subst f.
  assert (Hsl1 : slice hadiths 0 (Nat.min (0 + 20) (length hadiths)) = firstn 20 hadiths).
  { rewrite Hlen. reflexivity. }
  assert (Hsl2 : slice hadiths 20 (Nat.min (20 + 20) (length hadiths)) = skipn 20 hadiths).
  { rewrite Hlen. unfold slice. cbn [Nat.min Nat.add Nat.sub].
    apply firstn_all2. rewrite Hl20. lia. }
  assert (Hpass1 :
    translate_hadiths lower target_language generate_content disk hadiths 20
      (print StartingInitialTranslation (World [] c k ff))
    = (Ok (recs1 ++ recs2),
       World [(batch_file_name 1, Valid (JArr recs1));
              (batch_file_name 2, Valid (JArr recs2))]
         (c ++ [StartingInitialTranslation;
                SavedBatch 1 (path_join output_dir (batch_file_name 1));
                ProcessedBatch 1 20; Sleep 3;
                SavedBatch 2 (path_join output_dir (batch_file_name 2));
                ProcessedBatch 2 5; Sleep 3])
         (S (S k)) ff)).
  { unfold translate_hadiths. rewrite Hlen.
    change (python_range 25 0 25 20) with [0; 20]. cbn [fold_left].
    rewrite (@translate_batch_ok lower target_language generate_content disk
               hadiths 20 _ 0 recs1);
      [| rewrite Hsl1; exact Hr1 | exact Hd1].
    rewrite (@translate_batch_ok lower target_language generate_content disk
               hadiths 20 _ 20 recs2);
      [| rewrite Hsl2; exact Hr2 | exact Hd2].
    cbn [acc batch_num now fst snd files set_files log_all next_request print
         console attempts final_file app].
    rewrite Hn1, Hn2. unfold log_all, set_files, next_request, print.
    cbn [files console attempts final_file]. rewrite <- !app_assoc. reflexivity. }
  set (w2 := World [(batch_file_name 1, Valid (JArr recs1));
                    (batch_file_name 2, Valid (JArr recs2))]
               (c ++ [StartingInitialTranslation;
                      SavedBatch 1 (path_join output_dir (batch_file_name 1));
                      ProcessedBatch 1 20; Sleep 3;
                      SavedBatch 2 (path_join output_dir (batch_file_name 2));
                      ProcessedBatch 2 5; Sleep 3])
               (S (S k)) ff) in *.
  assert (Hc1 : batch_contribution (JArr recs1) = recs1).
  { rewrite batch_contribution_list, Hn1. reflexivity. }
  assert (Hc2 : batch_contribution (JArr recs2) = removelast recs2).
  { rewrite batch_contribution_list, Hn2. reflexivity. }
  assert (Hcombine : combine_batches_except_last (print CombiningBatches w2)
                     = (Ok (recs1 ++ removelast recs2), print CombiningBatches w2)).
  { rewrite (@combine_two_files (print CombiningBatches w2) recs1 recs2 eq_refl).
    rewrite Hc1, Hc2. reflexivity. }
  assert (Hlen24 : length (recs1 ++ removelast recs2) = 24).
  { rewrite length_app, Hn1, removelast_firstn_len, length_firstn, Hn2. reflexivity. }
  assert (Hmissing : find_missing_hadiths hadiths (recs1 ++ removelast recs2)
                     = Ok (skipn 24 hadiths)).
  { unfold find_missing_hadiths.
    rewrite (@record_ids_of_tr_ids (recs1 ++ removelast recs2)
               (map id (firstn 24 hadiths))).
    - cbn [bind]. f_equal.
      pose proof (@filter_missing (firstn 24 hadiths) (skipn 24 hadiths)) as Hf.
      rewrite firstn_skipn in Hf. apply Hf, Hnd.
    - rewrite map_app, <- removelast_map, Hids1, Hids2.
      rewrite removelast_map, removelast_map, <- !map_app, Hsplit. reflexivity. }
  assert (Hsl3 : slice (skipn 24 hadiths) 0 (Nat.min (0 + 5) 1) = skipn 24 hadiths).
  { unfold slice. apply firstn_all2. rewrite Hl24. cbn. lia. }
  assert (Hpass2 : forall w', attempts w' = S (S k) ->
    translate_hadiths lower target_language generate_content disk
      (skipn 24 hadiths) 5 w'
    = (Ok recs3,
       log_all [SavedBatch 1 (path_join output_dir (batch_file_name 1));
                ProcessedBatch 1 1; Sleep 3]
         (set_files (write_file (files w') (batch_file_name 1) (Valid (JArr recs3)))
            (next_request w')))).
  { intros w' Hw'. unfold translate_hadiths. rewrite Hl24.
    change (python_range 1 0 1 5) with [0]. cbn [fold_left].
    rewrite (@translate_batch_ok lower target_language generate_content disk
               (skipn 24 hadiths) 5 _ 0 recs3).
    - cbn [acc now batch_num app]. rewrite Hn3. reflexivity.
    - cbn [now]. rewrite Hw', Hl24, Hsl3. exact Hr3.
    - cbn [now]. rewrite Hw'. exact Hd3. }
  assert (Hne : skipn 24 hadiths <> []).
  { intros E. rewrite E in Hl24. discriminate. }
  assert (Hrun :
    process_all lower target_language generate_content disk hadiths (World [] c k ff)
    = (Ok tt,
       print (TranslationComplete final_output)
         (write_final ((recs1 ++ removelast recs2) ++ recs3)
            (log_all [SavedBatch 1 (path_join output_dir (batch_file_name 1));
                      ProcessedBatch 1 1; Sleep 3]
               (set_files
                  (write_file (files w2) (batch_file_name 1) (Valid (JArr recs3)))
                  (next_request
                     (print (ProcessingMissing 5)
                        (print (FoundMissing 1)
                           (print CheckingMissing (print CombiningBatches w2)))))))))).
  { unfold process_all. rewrite Hpass1, Hcombine, Hmissing.
    unfold reconcile. rewrite (match_nonempty _ _ Hne). rewrite Hl24.
    cbn [Nat.ltb Nat.leb]. rewrite Hpass2 by reflexivity. reflexivity. }
  rewrite Hpass1, Hrun. cbn [fst snd]. rewrite Hcombine. cbn [fst].
  repeat split; try assumption; try reflexivity.
  - unfold print, write_final, log_all, set_files, next_request. cbn [console].
    rewrite !in_app_iff. cbn [In]. tauto.
  - rewrite length_app, Hlen24, Hn3. reflexivity.
Qed.

Lemma twenty_five_records_end_to_end_witness :
  let run := process_all lower_ascii (lit "French") sample_service disk_ok
               (sample_hadiths 25) fresh_world in
  length (sample_hadiths 25) = 25
  /\ fst run = Ok tt
  /\ option_map (@length json) (final_file (snd run)) = Some 25.
Proof.
  cbn zeta. split; [reflexivity |].
  assert (Hnd : NoDup (map id (sample_hadiths 25))).
  { repeat (constructor; [cbn; intuition discriminate |]). constructor. }
  assert (H1 : valid_reply lower_ascii (lit "French") sample_service
                 (attempts fresh_world) (firstn 20 (sample_hadiths 25))
                 (sample_records (map Z.of_nat (seq 1 20)))).
  { exists (sample_reply 1 20). repeat split; vm_compute; reflexivity. }
  assert (H2 : valid_reply lower_ascii (lit "French") sample_service
                 (S (attempts fresh_world)) (skipn 20 (sample_hadiths 25))
                 (sample_records (map Z.of_nat (seq 21 5)))).
  { exists (sample_reply 21 5). repeat split; vm_compute; reflexivity. }
  assert (H3 : valid_reply lower_ascii (lit "French") sample_service
                 (S (S (attempts fresh_world))) (skipn 24 (sample_hadiths 25))
                 (sample_records (map Z.of_nat (seq 25 1)))).
  { exists (sample_reply 25 1). repeat split; vm_compute; reflexivity. }
  destruct (@twenty_five_records_end_to_end lower_ascii (lit "French") sample_service
              disk_ok (sample_hadiths 25) fresh_world _ _ _
              eq_refl Hnd eq_refl eq_refl eq_refl eq_refl H1 H2 H3)
    as (_ & _ & _ & _ & _ & _ & _ & _ & Hok & Hfinal & Hlen).
  split; [exact Hok |]. rewrite Hfinal. cbn [option_map]. rewrite Hlen. reflexivity.
Defined.

(** * Further properties *)

(** ** More on Python text *)

Module PyMore.

Import PyFacts.

Lemma lstrip_starts_clean (s : str) : starts_clean (lstrip s) = true.
Proof.
  induction s as [| c s IH]; [reflexivity |]. simpl.
  destruct (isspace_char c) eqn:E; [exact IH |]. simpl. rewrite E. reflexivity.
Qed.

Lemma lstrip_app_last (a : str) (c : char) :
  isspace_char c = false -> lstrip (a ++ [c]) = lstrip a ++ [c].
Proof.
  intros Hc. induction a as [| x a IH]; simpl.
  - rewrite Hc. reflexivity.
  - destruct (isspace_char x); [exact IH | reflexivity].
Qed.

Lemma rstrip_ends_clean (s : str) : ends_clean (rstrip s) = true.
Proof.
  unfold ends_clean, rstrip. rewrite rev_involutive. apply lstrip_starts_clean.
Qed.

Lemma rstrip_starts_clean (s : str) :
  starts_clean s = true -> starts_clean (rstrip s) = true.
Proof.
  destruct s as [| c s]; [reflexivity |]. simpl. intros Hc.
  apply negb_true_iff in Hc. unfold rstrip. cbn [rev].
  rewrite (@lstrip_app_last (rev s) c Hc), rev_app_distr. simpl. rewrite Hc. reflexivity.
Qed.

Lemma strip_is_clean (s : str) :
  starts_clean (strip s) = true /\ ends_clean (strip s) = true.
Proof.
  unfold strip. split.
  - apply rstrip_starts_clean, lstrip_starts_clean.
  - apply rstrip_ends_clean.
Qed.

Lemma strip_idempotent (s : str) : strip (strip s) = strip s.
Proof. destruct (strip_is_clean s) as [H1 H2]. apply strip_clean; assumption. Qed.



(** The text before the first [sep]. *)
Lemma split_head (sep : char) (s : str) :
  exists f fs, split sep s = f :: fs /\ (forall c, In c f -> In c s)
               /\ hd [] (split_once sep s) = f.
Proof.
  induction s as [| x s (f & fs & Hs & Hin & Ho)]; simpl.
  - exists [], []. split; [reflexivity |]. split; [intros c [] | reflexivity].
  - destruct (x =? sep)%N.
    + exists [], (split sep s). split; [reflexivity |].
      split; [intros c [] | reflexivity].
    + rewrite Hs. exists (x :: f), fs. repeat split.
      * intros c [-> | Hc]; [left; reflexivity | right; apply Hin, Hc].
      * destruct (split_once sep s) as [| g gs]; simpl in *; [subst; reflexivity |].
        subst. reflexivity.
Qed.

Lemma split_once_head (sep : char) (s : str) :
  hd [] (split_once sep s) = hd [] (split sep s).
Proof.
  destruct (split_head sep s) as (f & fs & Hs & _ & Ho). rewrite Hs, Ho. reflexivity.
Qed.



(** A digit is neither a sign nor an underscore. *)
Lemma isdigit_char_plain (c : char) :
  isdigit_char c = true ->
  (c =? UNDERSCORE)%N = false /\ (c =? MINUS)%N = false /\ (c =? PLUS)%N = false.
Proof.
  intros H. repeat split; apply N.eqb_neq; intros ->; vm_compute in H; discriminate.
Qed.



Lemma int_of_isdigit_nonneg (s : str) (z : Z) :
  starts_clean s = true -> ends_clean s = true -> isdigit s = true ->
  int s = Some z -> (0 <= z)%Z.
Proof.
  intros Hs He Hd. unfold int. rewrite (@strip_clean _ Hs He).
  destruct s as [| c s]; [discriminate |].
  unfold isdigit in Hd. rewrite forallb_forall in Hd.
  destruct (@isdigit_char_plain c (Hd c (or_introl eq_refl))) as (_ & -> & ->).
  destruct (int_body 0 false (c :: s)); simpl; intros E; [| discriminate].
  injection E as <-. lia.
Qed.

End PyMore.
(** ** More on the response parser *)

Section ParserMore.

Import PyFacts PyMore.

Variable lower : str -> str.
Variable target_language : str.

Local Abbreviation parse_line' := (parse_line lower target_language).
Local Abbreviation parse_lines' := (parse_lines lower target_language).
Local Abbreviation flush' := (flush lower target_language).

Lemma parse_lines_app (a b : list str) (st : parser_state) :
  parse_lines' st (a ++ b)
  = (st' <- parse_lines' st a ;; parse_lines' st' b)%result.
Proof.
  revert st. induction a as [| l a IH]; intros st; [reflexivity |].
  cbn [app parse_lines]. destruct (parse_line' st l) as [st1 | e]; [| reflexivity].
  cbn [bind]. apply IH.
Qed.

Lemma parse_line_strip (st : parser_state) (raw : str) :
  parse_line' st (strip raw) = parse_line' st raw.
Proof. unfold parse_line. rewrite strip_idempotent. reflexivity. Qed.

Lemma parse_line_blank (st : parser_state) (raw : str) :
  strip raw = [] -> parse_line' st raw = Ok st.
Proof. intros H. unfold parse_line. rewrite H. reflexivity. Qed.

Lemma parse_lines_content (lines : list str) (st : parser_state) :
  parse_lines' st lines
  = parse_lines' st
      (filter (fun l => match l with [] => false | _ => true end) (map strip lines)).
Proof.
  revert st. induction lines as [| raw lines IH]; intros st; [reflexivity |].
  cbn [map filter parse_lines].
  destruct (strip raw) as [| c l] eqn:E.
  - rewrite (@parse_line_blank st raw E). cbn [bind]. apply IH.
  - cbn [parse_lines]. rewrite <- E, parse_line_strip.
    destruct (parse_line' st raw); [| reflexivity]. cbn [bind]. apply IH.
Qed.

Lemma split_once_two (sep : char) (s : str) :
  contains sep s = true -> exists a b, split_once sep s = [a; b].
Proof.
  unfold contains. induction s as [| x s IH]; simpl; [discriminate |].
  destruct (x =? sep)%N; simpl.
  - intros _. eauto.
  - intros H. destruct (IH H) as (a & b & ->). eauto.
Qed.

Lemma flush_ok (st : parser_state) :
  parser_state_ok lower target_language st ->
  Forall (is_parsed_record lower target_language) (flush' st).
Proof.
  intros [Hcur Hts]. unfold flush.
  destruct (current_id st) as [i |]; [| exact Hts].
  destruct (current_translation st) as [| t ts]; [exact Hts |].
  apply Forall_app. split; [exact Hts |].
  constructor; [| constructor]. destruct (Hcur i eq_refl) as [Hi _].
  exists i. eexists. split; [exact Hi | reflexivity].
Qed.

Lemma flush_length (st : parser_state) :
  parser_state_ok lower target_language st ->
  length (flush' st)
  = length (translations st) + match current_id st with Some _ => 1 | None => 0 end.
Proof.
  intros [Hcur _]. unfold flush.
  destruct (current_id st) as [i |]; [| lia].
  destruct (Hcur i eq_refl) as [_ Hne].
  destruct (current_translation st); [congruence |].
  rewrite length_app. reflexivity.
Qed.

(** One line: the state stays well formed, and the records grow by one
    exactly on an identifier line. *)
Lemma parse_line_step (st st' : parser_state) (raw : str) :
  parser_state_ok lower target_language st ->
  parse_line' st raw = Ok st' ->
  parser_state_ok lower target_language st'
  /\ length (flush' st')
     = length (flush' st) + (if is_id_line (strip raw) then 1 else 0).
Proof.
  intros Hok. unfold parse_line.
  destruct (strip raw) as [| c l] eqn:E.
  - intros H. injection H as <-. split; [exact Hok |].
    change (is_id_line []) with false. cbv iota. lia.
  - rewrite <- E. clear c l E. set (line := strip raw).
    destruct (is_id_line line) eqn:Hid.
    + unfold is_id_line in Hid. apply andb_true_iff in Hid. destruct Hid as [Hc Hd].
      destruct (@split_once_two COLON line Hc) as (a & b & Hparts).
      rewrite <- split_once_head in Hd. rewrite Hparts in *. cbn [hd] in *.
      destruct (int (strip a)) as [i |] eqn:Hint; cbn [of_option bind];
        [| discriminate].
      intros H. injection H as <-.
      assert (Hi : (0 <= i)%Z).
      { destruct (strip_is_clean a) as [H1 H2].
        pose proof (@int_of_isdigit_nonneg (strip a) i H1 H2 Hd) as G.
        apply G. rewrite <- Hint. unfold int. rewrite strip_idempotent. reflexivity. }
      split.
      * split.
        -- cbn [current_id current_translation length Nat.ltb Nat.leb nth].
           intros j Hj. injection Hj as <-. split; [exact Hi | discriminate].
        -- cbn [translations]. apply flush_ok, Hok.
      * rewrite (@flush_length (ParserState _ _ _)).
        -- cbn [translations current_id]. cbv iota. reflexivity.
        -- split.
           ++ cbn [current_id current_translation length Nat.ltb Nat.leb nth].
              intros j Hj. injection Hj as <-. split; [exact Hi | discriminate].
           ++ cbn [translations]. apply flush_ok, Hok.
    + destruct (current_id st) as [i |] eqn:Hcur.
      * intros H. injection H as <-.
        assert (Hok' : parser_state_ok lower target_language
                         (ParserState (translations st) (Some i)
                            (current_translation st ++ [line]))).
        { destruct Hok as [Hc Hts]. split; [| exact Hts].
          cbn [current_id current_translation]. intros j Hj. injection Hj as <-.
          destruct (Hc i Hcur) as [Hi _]. split; [exact Hi |].
          intros F. apply app_eq_nil in F. destruct F. discriminate. }
        split; [exact Hok' |].
        rewrite (@flush_length _ Hok'), (@flush_length _ Hok), Hcur.
        cbn [translations current_id]. cbv iota. lia.
      * intros H. injection H as <-. split; [exact Hok | cbv iota; lia].
Qed.

Lemma parse_lines_steps (lines : list str) (st st' : parser_state) :
  parser_state_ok lower target_language st ->
  parse_lines' st lines = Ok st' ->
  parser_state_ok lower target_language st'
  /\ length (flush' st')
     = length (flush' st)
       + length (filter (fun raw => is_id_line (strip raw)) lines).
Proof.
  revert st. induction lines as [| raw lines IH]; intros st Hok H.
  - injection H as <-. split; [exact Hok | simpl; lia].
  - cbn [parse_lines] in H. destruct (parse_line' st raw) as [st1 |] eqn:E;
      [| discriminate].
    cbn [bind] in H. destruct (@parse_line_step st st1 raw Hok E) as [Hok1 Hlen1].
    destruct (IH st1 Hok1 H) as [Hok' Hlen']. split; [exact Hok' |].
    rewrite Hlen', Hlen1. cbn [filter].
    destruct (is_id_line (strip raw)); simpl; lia.
Qed.




(** A continuation line goes to the translation in progress. *)
Lemma parse_line_continuation (ts : list json) (i : Z) (ct : list str) (l : str) :
  continuation_line l ->
  parse_line' (ParserState ts (Some i) ct) l = Ok (ParserState ts (Some i) (ct ++ [l])).
Proof.
  intros (Hne & Hs & He & _ & Hid). unfold parse_line.
  rewrite (@strip_clean l Hs He). rewrite (match_nonempty _ _ Hne), Hid. reflexivity.
Qed.

Lemma parse_lines_continuations (conts : list str) (ts : list json) (i : Z)
    (ct : list str) :
  Forall continuation_line conts ->
  parse_lines' (ParserState ts (Some i) ct) conts
  = Ok (ParserState ts (Some i) (ct ++ conts)).
Proof.
  revert ct. induction conts as [| l conts IH]; intros ct H.
  - rewrite app_nil_r. reflexivity.
  - inversion H as [| ? ? Hl Hrest]; subst. cbn [parse_lines].
    rewrite (@parse_line_continuation ts i ct l Hl). cbn [bind].
    rewrite (IH (ct ++ [l]) Hrest), <- app_assoc. reflexivity.
Qed.

(** Lines that are not identifier lines leave the first state as it is. *)
Lemma parse_lines_preamble (pre : list str) :
  Forall (fun raw => is_id_line (strip raw) = false) pre ->
  parse_lines' (ParserState [] None []) pre = Ok (ParserState [] None []).
Proof.
  induction 1 as [| raw pre Hraw _ IH]; [reflexivity |].
  cbn [parse_lines]. unfold parse_line at 1.
  destruct (strip raw) as [| c l] eqn:E; [exact IH |].
  rewrite Hraw. exact IH.
Qed.

End ParserMore.



(** X2: every identifier line gives exactly one record: when the
    parser returns, it returns as many records as the reply has
    identifier lines, each built by the dictionary literal with a
    non-negative identifier. *)
Theorem parser_one_record_per_identifier_line (lower : str -> str)
    (target_language : str) (text : str) (recs : list json) :
  parse_gemini_response lower target_language text = Ok recs ->
  length recs = length (identifier_lines text)
  /\ Forall (is_parsed_record lower target_language) recs.
Proof.
  unfold parse_gemini_response, identifier_lines.
  destruct (parse_lines lower target_language (ParserState [] None [])
              (split LF (strip text))) as [st |] eqn:E; [| discriminate].
  cbn [bind]. intros H. injection H as <-.
  assert (Hinit : parser_state_ok lower target_language (ParserState [] None [])).
  { split; [intros i Hi; discriminate | constructor]. }
  destruct (@parse_lines_steps lower target_language _ _ _ Hinit E) as [Hok Hlen].
  split; [rewrite Hlen; reflexivity | exact (@flush_ok lower target_language st Hok)].
Qed.

Lemma parser_one_record_per_identifier_line_witness :
  exists recs,
    parse_gemini_response lower_ascii (lit "French") reply_with_preamble = Ok recs
    /\ length (identifier_lines reply_with_preamble) = 2
    /\ length recs = 2.
Proof.
  assert (Hrecs : parse_gemini_response lower_ascii (lit "French") reply_with_preamble
                  = Ok [translation_record lower_ascii (lit "French") 7
                          (lit "deux lignes de texte");
                        translation_record lower_ascii (lit "French") 8 []])
    by (vm_compute; reflexivity).
  eexists. split; [exact Hrecs |]. split; [reflexivity |].
  destruct (@parser_one_record_per_identifier_line lower_ascii (lit "French")
              reply_with_preamble _ Hrecs) as [Hlen _].
  rewrite Hlen. reflexivity.
Defined.

Lemma parse_by_content_lines (lower : str -> str) (target_language : str)
    (text : str) :
  parse_gemini_response lower target_language text
  = (st <- parse_lines lower target_language (ParserState [] None [])
             (content_lines text) ;;
     Ok (flush lower target_language st))%result.
Proof.
  unfold parse_gemini_response, content_lines.
  rewrite parse_lines_content. reflexivity.
Qed.

(** X3: the result depends only on the lines of the reply taken without
    their surrounding whitespace and without the blank ones: two replies
    with the same such lines parse alike. *)
Theorem parser_reads_content_lines (lower : str -> str) (target_language : str)
    (text1 text2 : str) :
  content_lines text1 = content_lines text2 ->
  parse_gemini_response lower target_language text1
  = parse_gemini_response lower target_language text2.
Proof.
  intros H. rewrite !parse_by_content_lines, H. reflexivity.
Qed.

Lemma parser_reads_content_lines_witness :
  content_lines reply_indented = content_lines reply_without_preamble
  /\ parse_gemini_response lower_ascii (lit "French") reply_indented
     = parse_gemini_response lower_ascii (lit "French") reply_without_preamble.
Proof.
  assert (H : content_lines reply_indented = content_lines reply_without_preamble)
    by reflexivity.
  split; [exact H |].
  exact (@parser_reads_content_lines lower_ascii (lit "French") _ _ H).
Defined.

(** X4: what comes before the first identifier line is dropped: when
    the content lines of a reply are lines that are not identifier
    lines followed by the content lines of another reply, both parse
    alike. *)
Theorem parser_drops_preamble (lower : str -> str) (target_language : str)
    (text text' : str) (pre : list str) :
  Forall (fun raw => is_id_line (strip raw) = false) pre ->
  content_lines text = pre ++ content_lines text' ->
  parse_gemini_response lower target_language text
  = parse_gemini_response lower target_language text'.
Proof.
  intros Hpre H. rewrite !parse_by_content_lines, H, parse_lines_app.
  rewrite (@parse_lines_preamble lower target_language pre Hpre). reflexivity.
Qed.

Lemma parser_drops_preamble_witness :
  Forall (fun raw => is_id_line (strip raw) = false) [lit "Here you are:"]
  /\ parse_gemini_response lower_ascii (lit "French") reply_with_preamble
     = parse_gemini_response lower_ascii (lit "French") reply_without_preamble.
Proof.
  assert (H : Forall (fun raw => is_id_line (strip raw) = false) [lit "Here you are:"])
    by (repeat constructor).
  split; [exact H |].
  exact (@parser_drops_preamble lower_ascii (lit "French") reply_with_preamble
           reply_without_preamble _ H eq_refl).
Defined.

(** X5: a translation spread over several lines is put together with
    single spaces: an identifier line followed by continuation lines
    gives one record whose text is the text of the identifier line and
    the continuation lines joined by a space. *)
Theorem parser_joins_continuation_lines (lower : str -> str)
    (target_language : str) (p : Z * str) (conts : list str) :
  well_formed_pair p ->
  Forall continuation_line conts ->
  parse_gemini_response lower target_language (join [LF] (reply_line p :: conts))
  = Ok [translation_record lower target_language (fst p)
          (join [SPACE] (snd p :: conts))].
Proof.
  intros Hp Hc. unfold parse_gemini_response.
  destruct (reply_line_clean Hp) as (Hne & Hs & He & Hlf).
  assert (Hlines : Forall (fun l => l <> [] /\ starts_clean l = true
                               /\ ends_clean l = true) (reply_line p :: conts)).
  { constructor; [auto |]. eapply Forall_impl; [| exact Hc].
    intros l (A & B & C & _). auto. }
  assert (Hnolf : Forall (fun l => ~ In LF l) (reply_line p :: conts)).
  { constructor; [exact Hlf |]. eapply Forall_impl; [| exact Hc].
    intros l (_ & _ & _ & D & _). exact D. }
  assert (Hnonempty : reply_line p :: conts <> []) by discriminate.
  destruct (join_lines_clean Hnonempty Hlines) as [Hjs Hje].
  rewrite (@PyFacts.strip_clean _ Hjs Hje).
  rewrite PyFacts.split_join; [| discriminate | exact Hnolf].
  cbn [parse_lines]. rewrite (@parse_line_reply lower target_language _ p Hp).
  cbn [bind flush current_id translations].
  rewrite (@parse_lines_continuations lower target_language conts [] (fst p)
             [snd p] Hc).
  reflexivity.
Qed.

Lemma parser_joins_continuation_lines_witness :
  well_formed_pair (7%Z, lit "deux lignes")
  /\ Forall continuation_line sample_continuations
  /\ parse_gemini_response lower_ascii (lit "French")
       (join [LF] (reply_line (7%Z, lit "deux lignes") :: sample_continuations))
     = Ok [translation_record lower_ascii (lit "French") 7
             (lit "deux lignes note: suite et fin")].
Proof.
  assert (Hp : well_formed_pair (7%Z, lit "deux lignes")).
  { repeat split; try discriminate; try (cbn; lia); cbn; intuition discriminate. }
  assert (Hc : Forall continuation_line sample_continuations).
  { repeat constructor; try discriminate; cbn; intuition discriminate. }
  split; [exact Hp |]. split; [exact Hc |].
  exact (@parser_joins_continuation_lines lower_ascii (lit "French") _ _ Hp Hc).
Defined.


(** ** File names and sort keys *)

Section FileNames.

Import PyFacts.

Lemma endswith_suffix (a b : str) : endswith (a ++ b) b = true.
Proof.
  unfold endswith. rewrite length_app.
  replace (length a + length b - length b) with (length a) by lia.
  rewrite skipn_app, Nat.sub_diag, skipn_all. simpl.
  rewrite str_eqb_refl. apply Nat.leb_le. lia.
Qed.

Lemma int_str_of_Z (z : Z) : int (str_of_Z z) = Some z.
Proof.
  destruct z as [| p | p].
  - reflexivity.
  - change (str_of_Z (Z.pos p)) with (str_of_N (N.pos p)).
    rewrite int_str_of_N. reflexivity.
  - change (str_of_Z (Z.neg p)) with (MINUS :: str_of_N (N.pos p)).
    destruct (str_of_N_spec (N.pos p)) as (Hne & Hall & Hval).
    destruct (digits_clean Hall) as [_ He].
    unfold int. rewrite strip_clean.
    + cbn [N.eqb MINUS Pos.eqb]. rewrite (@int_body_digits _ 0%N false Hall) by (left; exact Hne).
      unfold digits_value in Hval. rewrite Hval. reflexivity.
    + reflexivity.
    + change (MINUS :: str_of_N (N.pos p)) with ([MINUS] ++ str_of_N (N.pos p)).
      apply ends_clean_app; assumption.
Qed.

Lemma str_of_Z_chars (z : Z) (c : char) :
  In c (str_of_Z z) -> ascii_digit c \/ c = MINUS.
Proof.
  assert (G : forall n, In c (str_of_N n) -> ascii_digit c).
  { intros n Hin. destruct (str_of_N_spec n) as (_ & Hall & _).
    rewrite Forall_forall in Hall. auto. }
  destruct z as [| p | p]; simpl.
  - intros H. left. exact (G 0%N H).
  - intros H. left. exact (G (N.pos p) H).
  - intros [<- | H]; [right; reflexivity | left; exact (G (N.pos p) H)].
Qed.

Lemma str_of_Z_no_char (z : Z) (c : char) :
  (c < 45 \/ 45 < c < 48 \/ 57 < c)%N -> ~ In c (str_of_Z z).
Proof.
  intros Hc Hin. destruct (str_of_Z_chars _ _ Hin) as [[H1 H2] | ->].
  - lia.
  - unfold MINUS in Hc. lia.
Qed.

Lemma batch_key_of_name (z : Z) : batch_key (batch_file_name z) = Ok z.
Proof.
  unfold batch_key, batch_file_name.
  change (lit "batch_" ++ str_of_Z z ++ lit ".json")
    with (lit "batch" ++ UNDERSCORE :: (str_of_Z z ++ DOT :: lit "json")).
  rewrite split_app by (cbv; intuition discriminate).
  rewrite (@split_none UNDERSCORE (str_of_Z z ++ DOT :: lit "json")).
  - cbn [nth_error of_option bind].
    rewrite split_app by (apply str_of_Z_no_char; unfold DOT; lia).
    cbn [hd]. rewrite int_str_of_Z. reflexivity.
  - intros Hin. apply in_app_or in Hin. destruct Hin as [Hin | Hin].
    + revert Hin. apply str_of_Z_no_char. unfold UNDERSCORE. lia.
    + cbv in Hin. intuition discriminate.
Qed.

End FileNames.

(** X6: the name [save_batch] gives the file of a batch number ends in
    [.json] and is read back as that number by the sort key of the
    combination. *)
Theorem batch_file_name_round_trip (z : Z) :
  endswith (batch_file_name z) (lit ".json") = true
  /\ batch_key (batch_file_name z) = Ok z.
Proof.
  split; [| apply batch_key_of_name].
  unfold batch_file_name. rewrite app_assoc. apply endswith_suffix.
Qed.

(** ** Sorting the chunk files *)

Section SortFacts.

Lemma keyed_names (names : list str) (ks : list (Z * str)) :
  keyed names = Ok ks ->
  map snd ks = names /\ Forall2 (fun n k => batch_key n = Ok k) names (map fst ks).
Proof.
  revert ks. induction names as [| x xs IH]; intros ks H.
  - injection H as <-. split; [reflexivity | constructor].
  - cbn [keyed] in H. destruct (batch_key x) as [k |] eqn:Ek; [| discriminate].
    cbn [bind] in H. destruct (keyed xs) as [ks' |]; [| discriminate].
    cbn [bind] in H. injection H as <-. destruct (IH ks' eq_refl) as [H1 H2].
    split; [cbn; rewrite H1; reflexivity | constructor; assumption].
Qed.

Lemma keyed_ok_iff (names : list str) :
  (exists ks, keyed names = Ok ks)
  <-> Forall (fun n => exists k, batch_key n = Ok k) names.
Proof.
  induction names as [| x xs IH].
  - split; [constructor | intros _; exists []; reflexivity].
  - split.
    + intros (ks & H). cbn [keyed] in H.
      destruct (batch_key x) as [k |] eqn:Ek; [| discriminate]. cbn [bind] in H.
      destruct (keyed xs) as [ks' |] eqn:Exs; [| discriminate].
      constructor; [eauto | apply IH; eauto].
    + intros H. inversion H as [| ? ? (k & Hk) Hxs]; subst.
      apply IH in Hxs. destruct Hxs as (ks' & Hks').
      exists ((k, x) :: ks'). cbn [keyed]. rewrite Hk, Hks'. reflexivity.
Qed.

Lemma insert_by_key_perm (kx : Z * str) (l : list (Z * str)) :
  Permutation (insert_by_key kx l) (kx :: l).
Proof.
  induction l as [| ky l IH]; [reflexivity |]. cbn [insert_by_key].
  destruct (fst ky <=? fst kx)%Z; [| reflexivity].
  rewrite IH. apply perm_swap.
Qed.

Lemma insert_by_key_sorted (kx : Z * str) (l : list (Z * str)) :
  Sorted key_le l -> Sorted key_le (insert_by_key kx l).
Proof.
  induction 1 as [| ky l Hl IH Hhd]; cbn [insert_by_key].
  - repeat constructor.
  - destruct (Z.leb_spec (fst ky) (fst kx)) as [Hle | Hlt].
    + constructor; [exact IH |].
      destruct l as [| kz l]; cbn [insert_by_key].
      * constructor. exact Hle.
      * destruct (fst kz <=? fst kx)%Z; constructor.
        -- inversion Hhd; assumption.
        -- exact Hle.
    + constructor; [constructor; assumption |].
      constructor. unfold key_le. lia.
Qed.

Lemma sort_fold (l acc : list (Z * str)) :
  Sorted key_le acc ->
  Sorted key_le (fold_left (fun sorted kx => insert_by_key kx sorted) l acc)
  /\ Permutation (fold_left (fun sorted kx => insert_by_key kx sorted) l acc)
       (acc ++ l).
Proof.
  revert acc. induction l as [| kx l IH]; intros acc Hacc.
  - simpl. rewrite app_nil_r. auto.
  - cbn [fold_left].
    destruct (IH (insert_by_key kx acc) (insert_by_key_sorted kx Hacc)) as [Hs Hp].
    split; [exact Hs |].
    eapply Permutation_trans; [exact Hp |].
    eapply Permutation_trans; [apply Permutation_app_tail, insert_by_key_perm |].
    simpl. apply Permutation_middle.
Qed.

End SortFacts.

Lemma keyed_pairs (names : list str) (ks : list (Z * str)) :
  keyed names = Ok ks ->
  map snd ks = names /\ Forall (fun kx => batch_key (snd kx) = Ok (fst kx)) ks.
Proof.
  revert ks. induction names as [| x xs IH]; intros ks H.
  - injection H as <-. split; [reflexivity | constructor].
  - cbn [keyed] in H. destruct (batch_key x) as [k |] eqn:Ek; [| discriminate].
    cbn [bind] in H. destruct (keyed xs) as [ks' |]; [| discriminate].
    cbn [bind] in H. injection H as <-. destruct (IH ks' eq_refl) as [H1 H2].
    split; [cbn; rewrite H1; reflexivity | constructor; assumption].
Qed.

Lemma sorted_keys (l : list (Z * str)) :
  Sorted key_le l -> Sorted Z.le (map fst l).
Proof.
  induction 1 as [| kx l Hl IH Hhd]; cbn [map]; constructor; [exact IH |].
  destruct Hhd; cbn [map]; constructor. assumption.
Qed.

Lemma keyed_forall2 (l : list (Z * str)) :
  Forall (fun kx => batch_key (snd kx) = Ok (fst kx)) l ->
  Forall2 (fun n k => batch_key n = Ok k) (map snd l) (map fst l).
Proof.
  induction 1 as [| kx l Hkx _ IH]; cbn [map]; [constructor |].
  constructor; assumption.
Qed.

(** X7: the chunk files are combined in the increasing order of the
    number in their name: the names combination goes through are the
    [.json] names of the directory, each once, and their sort keys are
    in increasing order. *)
Theorem batch_files_sorted_by_number (d : directory) (names : list str) :
  batch_files d = Ok names ->
  Permutation names (json_names d)
  /\ exists keys, Forall2 (fun n k => batch_key n = Ok k) names keys
                  /\ Sorted Z.le keys.
Proof.
  unfold batch_files. destruct (keyed (json_names d)) as [ks |] eqn:E; [| discriminate].
  cbn [bind]. intros H. injection H as <-.
  destruct (keyed_pairs _ E) as [Hnames Hkeys].
  destruct (@sort_fold ks [] (Sorted_nil _)) as [Hsorted Hperm].
  fold (sort_by_key ks) in Hsorted, Hperm. cbn [app] in Hperm.
  split.
  - rewrite <- Hnames. apply Permutation_map, Hperm.
  - exists (map fst (sort_by_key ks)). split; [| apply sorted_keys, Hsorted].
    assert (Hall : Forall (fun kx => batch_key (snd kx) = Ok (fst kx)) (sort_by_key ks)).
    { eapply Permutation_Forall; [apply Permutation_sym, Hperm | exact Hkeys]. }
    apply keyed_forall2, Hall.
Qed.

Lemma batch_files_sorted_by_number_witness :
  batch_files sample_directory = Ok [lit "batch_2.json"; lit "batch_10.json"]
  /\ Permutation [lit "batch_2.json"; lit "batch_10.json"] (json_names sample_directory).
Proof.
  assert (H : batch_files sample_directory = Ok [lit "batch_2.json"; lit "batch_10.json"])
    by reflexivity.
  split; [exact H |].
  exact (proj1 (@batch_files_sorted_by_number sample_directory _ H)).
Defined.


(** ** More on missing records *)

(** X9: when a translated record has no ['id'], or is not a dictionary,
    and the records before it are in order, looking for the missing
    records raises what reading the ['id'] of that record raises. *)
Theorem find_missing_raises_on_bad_record (original_hadiths : list hadith)
    (before after : list json) (r : json) (e : exn) :
  Forall (fun r' => exists v, record_id r' = Ok v) before ->
  record_id r = Raise e ->
  find_missing_hadiths original_hadiths (before ++ r :: after) = Raise e.
Proof.
  intros Hb Hr. unfold find_missing_hadiths.
  assert (G : record_ids (before ++ r :: after) = Raise e).
  { induction Hb as [| r' rs Hr' _ IH]; cbn [app record_ids].
    - rewrite Hr. reflexivity.
    - destruct Hr' as (v & Hv). rewrite Hv, IH. reflexivity. }
  rewrite G. reflexivity.
Qed.

Lemma find_missing_raises_on_bad_record_witness :
  find_missing_hadiths (sample_hadiths 5)
    (sample_records [1%Z] ++ JObj [(lit "french", JStr (lit "tarjama"))] :: [])
  = Raise KeyError.
Proof.
  apply find_missing_raises_on_bad_record.
  - repeat constructor. eexists. reflexivity.
  - reflexivity.
Defined.

Lemma filter_keeps_all (A : Type) (p : A -> bool) (l : list A) :
  (forall x, In x l -> p x = true) -> filter p l = l.
Proof.
  induction l as [| x l IH]; intros H; [reflexivity |].
  simpl. rewrite (H x (or_introl eq_refl)). f_equal. apply IH.
  intros y Hy. apply H. right. exact Hy.
Qed.

(** X10: when the key of the language is ["id"] itself, the text takes
    the place of the identifier in every record of the parser, and no
    input record counts as translated: all of them are missing. *)
Theorem language_key_id_hides_identifiers (lower : str -> str)
    (target_language : str) (text : str) (recs : list json)
    (original_hadiths : list hadith) :
  lower target_language = lit "id" ->
  parse_gemini_response lower target_language text = Ok recs ->
  find_missing_hadiths original_hadiths recs = Ok original_hadiths.
Proof.
  intros Hkey Hparse.
  assert (Hrecs : Forall (is_parsed_record lower target_language) recs).
  { unfold parse_gemini_response in Hparse.
    destruct (parse_lines lower target_language (ParserState [] None [])
                (split LF (strip text))) as [st |] eqn:E; [| discriminate].
    cbn [bind] in Hparse. injection Hparse as <-.
    assert (Hinit : parser_state_ok lower target_language (ParserState [] None [])).
    { split; [intros i Hi; discriminate | constructor]. }
    destruct (@parse_lines_steps lower target_language _ _ _ Hinit E) as [Hok _].
    exact (@flush_ok lower target_language st Hok). }
  assert (Hids : exists ids, record_ids recs = Ok ids
                             /\ Forall (fun v => exists t, v = JStr t) ids).
  { clear Hparse. induction Hrecs as [| r rs Hr _ IH].
    - exists []. split; [reflexivity | constructor].
    - destruct Hr as (i & t & _ & ->). destruct IH as (ids & Hi & Hs).
      exists (JStr t :: ids). split.
      + cbn [record_ids]. unfold translation_record. rewrite Hkey.
        cbn. rewrite Hi. reflexivity.
      + constructor; eauto. }
  destruct Hids as (ids & Hi & Hs).
  unfold find_missing_hadiths. rewrite Hi. cbn [bind]. f_equal.
  apply filter_keeps_all. intros h _. apply negb_true_iff.
  unfold in_ids. clear Hi. induction Hs as [| v vs Hv _ IH]; [reflexivity |].
  destruct Hv as (t & ->). cbn [existsb int_equals orb]. exact IH.
Qed.

Lemma language_key_id_hides_identifiers_witness :
  lower_ascii (lit "ID") = lit "id"
  /\ find_missing_hadiths (sample_hadiths 5)
       [translation_record lower_ascii (lit "ID") 1 (lit "satu");
        translation_record lower_ascii (lit "ID") 2 (lit "dua")]
     = Ok (sample_hadiths 5).
Proof.
  split; [reflexivity |].
  apply (@language_key_id_hides_identifiers lower_ascii (lit "ID")
           (lit "1: satu" ++ [LF] ++ lit "2: dua")).
  - reflexivity.
  - reflexivity.
Defined.

(** ** More on the prompt builder *)

Lemma strip_trailing_space (s : str) : strip (s ++ [SPACE]) = strip s.
Proof.
  induction s as [| x s IH]; [reflexivity |].
  unfold strip in *. cbn [app lstrip].
  destruct (isspace_char x); [exact IH |].
  unfold rstrip. change (x :: s ++ [SPACE]) with ((x :: s) ++ [SPACE]).
  rewrite rev_app_distr. reflexivity.
Qed.

(** X11: when the English field is a dictionary with only one of
    [narrator] and [text], the English of the prompt is that one
    without its surrounding whitespace; with neither, it is empty. *)
Theorem english_text_of_partial_dict (i : Z) (a : option str) (s : str) :
  english_text (Hadith i a (EnglishDict None (Some s))) = strip s
  /\ english_text (Hadith i a (EnglishDict (Some s) None)) = strip s
  /\ english_text (Hadith i a (EnglishDict None None)) = [].
Proof.
  split; [reflexivity |]. split; [| reflexivity].
  unfold english_text. cbn [english get_default app].
  apply strip_trailing_space.
Qed.

(** ** More on chunking and the passes *)

Section ChunkFacts.

Lemma python_range_past (fuel i stop step : nat) :
  stop <= i -> python_range fuel i stop step = [].
Proof.
  intros H. destruct fuel; [reflexivity |]. simpl.
  destruct (Nat.ltb_spec i stop); [lia | reflexivity].
Qed.

Lemma python_range_below (fuel i stop step j : nat) :
  In j (python_range fuel i stop step) -> i <= j < stop.
Proof.
  revert i. induction fuel as [| fuel IH]; intros i; simpl; [intros [] |].
  destruct (Nat.ltb_spec i stop) as [Hlt | Hge]; [| intros []].
  intros [<- | Hin]; [lia |]. apply IH in Hin. lia.
Qed.

Lemma chunk_at_length (hadiths : list hadith) (batch_size i : nat) :
  length (chunk_at hadiths batch_size i)
  = Nat.min (i + batch_size) (length hadiths) - i.
Proof.
  unfold chunk_at, slice. rewrite length_firstn, length_skipn. lia.
Qed.

Lemma range_chunks (hadiths : list hadith) (batch_size fuel i : nat) :
  0 < batch_size -> i <= length hadiths -> length hadiths - i <= fuel ->
  concat (map (chunk_at hadiths batch_size)
            (python_range fuel i (length hadiths) batch_size))
  = skipn i hadiths.
Proof.
  intros Hbs. revert i. induction fuel as [| fuel IH]; intros i Hi Hfuel.
  - simpl. symmetry. apply skipn_all2. lia.
  - cbn [python_range].
    destruct (Nat.ltb_spec i (length hadiths)) as [Hlt | Hge].
    + cbn [map concat].
      destruct (Nat.le_gt_cases (i + batch_size) (length hadiths)) as [Hin | Hout].
      * rewrite IH by lia. unfold chunk_at, slice.
        rewrite Nat.min_l by exact Hin.
        replace (i + batch_size - i) with batch_size by lia.
        replace (i + batch_size) with (batch_size + i) by lia.
        rewrite <- skipn_skipn. apply firstn_skipn.
      * rewrite python_range_past by lia. cbn [map concat]. rewrite app_nil_r.
        unfold chunk_at, slice. apply firstn_all2. rewrite length_skipn. lia.
    + simpl. symmetry. apply skipn_all2. lia.
Qed.

Lemma python_range_length (fuel i stop step : nat) :
  0 < step -> stop - i <= fuel ->
  length (python_range fuel i stop step) = (stop - i + step - 1) / step.
Proof.
  intros Hstep. revert i. induction fuel as [| fuel IH]; intros i Hfuel.
  - simpl. symmetry. apply Nat.div_small. lia.
  - cbn [python_range].
    destruct (Nat.ltb_spec i stop) as [Hlt | Hge].
    + cbn [length]. rewrite IH by lia.
      replace (stop - i + step - 1) with ((stop - i - 1) + 1 * step) by lia.
      rewrite Nat.div_add by lia.
      destruct (Nat.le_gt_cases step (stop - i)) as [Hbig | Hsmall].
      * replace (stop - (i + step) + step - 1) with (stop - i - 1) by lia. lia.
      * replace (stop - (i + step) + step - 1) with (step - 1) by lia.
        rewrite !Nat.div_small by lia. reflexivity.
    + simpl. symmetry. apply Nat.div_small. lia.
Qed.

End ChunkFacts.

(** X12: the chunks of a pass, taken at the indices of the loop, are
    the input cut into consecutive pieces: put end to end they give
    the input back, and each has at least one record and at most
    [batch_size]. *)
Theorem chunks_cover_input (hadiths : list hadith) (n : nat) :
  let indices := python_range (length hadiths) 0 (length hadiths) (S n) in
  concat (map (chunk_at hadiths (S n)) indices) = hadiths
  /\ Forall (fun i => 1 <= length (chunk_at hadiths (S n) i) <= S n) indices.
Proof.
  cbn zeta. split.
  - rewrite range_chunks by lia. reflexivity.
  - apply Forall_forall. intros i Hi. apply python_range_below in Hi.
    rewrite chunk_at_length. lia.
Qed.

Section PassFacts.

Variable lower : str -> str.
Variable target_language : str.
Variable generate_content : nat -> list json -> result str.
Variable disk : nat -> write_outcome.

Local Abbreviation step' :=
  (translate_batch lower target_language generate_content disk).

Lemma write_file_keeps_names (d : directory) (name name' : str) (c : file_content) :
  In name (map fst d) -> In name (map fst (write_file d name' c)).
Proof.
  induction d as [| [n c'] d IH]; simpl; [intros [] |].
  destruct (str_eqb n name'); simpl; tauto.
Qed.

(** What a chunk does to the world, whatever way it ends. *)
Lemma translate_batch_world (hadiths : list hadith) (batch_size : nat)
    (st : loop_state) (i : nat) :
  let w' := now (step' hadiths batch_size st i) in
  attempts w' = S (attempts (now st))
  /\ final_file w' = final_file (now st)
  /\ (forall name, In name (map fst (files (now st))) -> In name (map fst (files w'))).
Proof.
  cbn zeta. unfold translate_batch.
  destruct (try_batch_cases lower target_language generate_content disk
              hadiths batch_size st i)
    as [(e & ->) | [(e & _ & ->) | (bt & _ & ->)]];
    cbn [now on_error print next_request set_files log_all attempts final_file files];
    repeat split; auto using write_file_keeps_names.
Qed.

Lemma pass_world (hadiths : list hadith) (batch_size : nat) (indices : list nat)
    (st : loop_state) :
  let w' := now (fold_left (step' hadiths batch_size) indices st) in
  attempts w' = attempts (now st) + length indices
  /\ final_file w' = final_file (now st)
  /\ (forall name, In name (map fst (files (now st))) -> In name (map fst (files w'))).
Proof.
  cbn zeta. revert st. induction indices as [| i rest IH]; intros st.
  - simpl. repeat split; auto.
  - cbn [fold_left length].
    destruct (IH (step' hadiths batch_size st i)) as (Ha & Hf & Hn).
    destruct (translate_batch_world hadiths batch_size st i) as (Ha' & Hf' & Hn').
    rewrite Ha, Ha', Hf, Hf'. repeat split; [lia | auto].
Qed.

End PassFacts.

(** X13: a pass makes one request per chunk, whatever the service
    answers and whether the writes succeed: for [n] records and a chunk
    size [b] that is [n / b] rounded up. *)
Theorem pass_makes_one_request_per_chunk (lower : str -> str)
    (target_language : str) (generate_content : nat -> list json -> result str)
    (disk : nat -> write_outcome) (hadiths : list hadith) (n : nat) (w : world) :
  attempts (snd (translate_hadiths lower target_language generate_content disk
                   hadiths (S n) w))
  = attempts w + (length hadiths + n) / S n.
Proof.
  unfold translate_hadiths. cbn [snd].
  destruct (pass_world lower target_language generate_content disk hadiths (S n)
              (python_range (length hadiths) 0 (length hadiths) (S n))
              (LoopState [] 1 w)) as (Ha & _).
  rewrite Ha. cbn [now]. rewrite python_range_length by lia.
  replace (length hadiths - 0 + S n - 1) with (length hadiths + n) by lia.
  reflexivity.
Qed.

(** X14: saving a batch and reading the directory: after a write that
    succeeds, the file of the batch number holds the list that was
    saved, and every other file is as before. *)
Theorem saved_batch_reads_back (batch_translations : list json) (batch_num : Z)
    (k : nat) (disk : nat -> write_outcome) (w : world) :
  disk k = WriteOk ->
  let r := save_batch disk batch_translations batch_num k w in
  fst r = Ok tt
  /\ read_file (files (snd r)) (batch_file_name batch_num)
     = Some (Valid (JArr batch_translations))
  /\ (forall name, name <> batch_file_name batch_num ->
                   read_file (files (snd r)) name = read_file (files w) name).
Proof.
  intros Hd. cbn zeta. unfold save_batch. rewrite Hd.
  cbn [fst snd print set_files files]. split; [reflexivity |]. split.
  - apply read_write_same.
  - intros name Hne. apply read_write_other, Hne.
Qed.

Lemma saved_batch_reads_back_witness :
  let r := save_batch disk_ok (sample_records [1%Z]) 3 0 world_with_notes in
  disk_ok 0 = WriteOk
  /\ read_file (files (snd r)) (batch_file_name 3)
     = Some (Valid (JArr (sample_records [1%Z])))
  /\ read_file (files (snd r)) (lit "notes.json") = Some (Valid (JArr [])).
Proof.
  cbn zeta. split; [reflexivity |].
  destruct (@saved_batch_reads_back (sample_records [1%Z]) 3 0 disk_ok
              world_with_notes eq_refl) as (_ & Hsame & Hother).
  split; [exact Hsame |]. rewrite Hother; [reflexivity | discriminate].
Defined.

(** X15: a [.json] file in the output directory whose name has no sort
    key stops the run: the first pass is made, combination raises, and
    no final file is written. *)
Theorem stray_json_file_aborts_run (lower : str -> str) (target_language : str)
    (generate_content : nat -> list json -> result str)
    (disk : nat -> write_outcome) (hadiths : list hadith) (w : world)
    (name : str) (e : exn) :
  In name (map fst (files w)) ->
  endswith name (lit ".json") = true ->
  batch_key name = Raise e ->
  exists e' w',
    process_all lower target_language generate_content disk hadiths w = (Raise e', w')
    /\ final_file w' = final_file w.
Proof.
  intros Hin Hjson Hkey. unfold process_all, translate_hadiths.
  set (st := fold_left _ _ _).
  destruct (pass_world lower target_language generate_content disk hadiths 20
              (python_range (length hadiths) 0 (length hadiths) 20)
              (LoopState [] 1 (print StartingInitialTranslation w)))
    as (_ & Hf & Hn).
  fold st in Hf, Hn. cbn [now print final_file files] in Hf, Hn.
  unfold combine_batches_except_last, batch_files.
  cbn [print files].
  destruct (keyed (json_names (files (now st)))) as [ks | e'] eqn:E.
  - exfalso.
    assert (Hall : Forall (fun n => exists k, batch_key n = Ok k)
                     (json_names (files (now st)))).
    { apply keyed_ok_iff. eauto. }
    rewrite Forall_forall in Hall.
    destruct (Hall name) as (k & Hk).
    + unfold json_names. apply filter_In. split; [apply Hn, Hin | exact Hjson].
    + rewrite Hkey in Hk. discriminate.
  - cbn [bind]. eexists. eexists. split; [reflexivity |].
    cbn [print final_file]. exact Hf.
Qed.

Lemma stray_json_file_aborts_run_witness :
  batch_key (lit "notes.json") = Raise IndexError
  /\ exists e' w',
       process_all lower_ascii (lit "French") sample_service disk_ok
         (sample_hadiths 25) world_with_notes = (Raise e', w')
       /\ final_file w' = None.
Proof.
  split; [reflexivity |].
  exact (@stray_json_file_aborts_run lower_ascii (lit "French") sample_service
           disk_ok (sample_hadiths 25) world_with_notes (lit "notes.json")
           IndexError (or_introl eq_refl) eq_refl eq_refl).
Defined.

(** ** A run that needs no second pass *)

Lemma combine_one_file (w : world) (a : list json) :
  files w = [(batch_file_name 1, Valid (JArr a))] ->
  combine_batches_except_last w = (Ok (batch_contribution (JArr a)), w).
Proof.
  intros H. unfold combine_batches_except_last. rewrite H.
  change (batch_files [(batch_file_name 1, Valid (JArr a))])
    with (Ok [batch_file_name 1]).
  reflexivity.
Qed.

(** X16: a run on exactly 20 records, from an empty output directory,
    where the request gets a valid and complete reply and the write
    succeeds: the chunk file is taken whole, nothing is missing, no
    second pass is made, and the final file holds the 20 records of
    the reply after a single request. *)
Theorem full_chunk_needs_no_second_pass (lower : str -> str)
    (target_language : str) (generate_content : nat -> list json -> result str)
    (disk : nat -> write_outcome) (hadiths : list hadith) (w : world)
    (recs : list json) :
  length hadiths = 20 ->
  files w = [] ->
  disk (attempts w) = WriteOk ->
  valid_reply lower target_language generate_content (attempts w) hadiths recs ->
  let run := process_all lower target_language generate_content disk hadiths w in
  fst run = Ok tt
  /\ final_file (snd run) = Some recs
  /\ attempts (snd run) = S (attempts w)
  /\ files (snd run) = [(batch_file_name 1, Valid (JArr recs))]
  /\ find_missing_hadiths hadiths recs = Ok [].
Proof.
  intros Hlen Hfiles Hd Hr. cbn zeta.
  assert (Hids : map tr_id recs = map Some (map id hadiths)).
  { destruct Hr as (_ & _ & _ & H). rewrite H, map_map. reflexivity. }
  assert (Hn : length recs = 20).
  { rewrite <- (length_map tr_id), Hids, !length_map. exact Hlen. }
  destruct w as [f c k ff]. cbn [files attempts] in *. subst f.
  assert (Hsl : slice hadiths 0 (Nat.min (0 + 20) (length hadiths)) = hadiths).
  { rewrite Hlen. unfold slice. cbn [Nat.min Nat.add Nat.sub skipn].
    apply firstn_all2. lia. }
  set (w2 := World [(batch_file_name 1, Valid (JArr recs))]
               (c ++ [StartingInitialTranslation;
                      SavedBatch 1 (path_join output_dir (batch_file_name 1));
                      ProcessedBatch 1 20; Sleep 3])
               (S k) ff).
  assert (Hpass :
    translate_hadiths lower target_language generate_content disk hadiths 20
      (print StartingInitialTranslation (World [] c k ff)) = (Ok recs, w2)).
  { unfold translate_hadiths. rewrite Hlen.
    change (python_range 20 0 20 20) with [0]. cbn [fold_left].
    rewrite (@translate_batch_ok lower target_language generate_content disk
               hadiths 20 _ 0 recs);
      [| rewrite Hsl; exact Hr | exact Hd].
    cbn [acc batch_num now fst snd app]. rewrite Hn.
    unfold w2, log_all, set_files, next_request, print.
    cbn [files console attempts final_file]. rewrite <- !app_assoc. reflexivity. }
  assert (Hcombine : combine_batches_except_last (print CombiningBatches w2)
                     = (Ok recs, print CombiningBatches w2)).
  { rewrite (@combine_one_file (print CombiningBatches w2) recs eq_refl).
    rewrite batch_contribution_list, Hn. reflexivity. }
  assert (Hmissing : find_missing_hadiths hadiths recs = Ok []).
  { unfold find_missing_hadiths.
    rewrite (@record_ids_of_tr_ids recs (map id hadiths) Hids). cbn [bind].
    f_equal. apply filter_none. intros h Hh. apply negb_false_iff.
    apply in_ids_ints. apply in_map, Hh. }
  unfold process_all. rewrite Hpass, Hcombine, Hmissing.
  cbn [reconcile fst snd]. repeat split; reflexivity.
Qed.

Lemma full_chunk_needs_no_second_pass_witness :
  let run := process_all lower_ascii (lit "French") service_of_twenty disk_ok
               (sample_hadiths 20) fresh_world in
  length (sample_hadiths 20) = 20
  /\ fst run = Ok tt
  /\ attempts (snd run) = 1
  /\ final_file (snd run) = Some (sample_records (map Z.of_nat (seq 1 20))).
Proof.
  cbn zeta. split; [reflexivity |].
  assert (H : valid_reply lower_ascii (lit "French") service_of_twenty
                (attempts fresh_world) (sample_hadiths 20)
                (sample_records (map Z.of_nat (seq 1 20)))).
  { exists (sample_reply 1 20). repeat split; vm_compute; reflexivity. }
  destruct (@full_chunk_needs_no_second_pass lower_ascii (lit "French")
              service_of_twenty disk_ok (sample_hadiths 20) fresh_world _
              eq_refl eq_refl eq_refl H) as (Hok & Hfinal & Hatt & _).
  split; [exact Hok |]. split; [exact Hatt | exact Hfinal].
Defined.

(** ** Runs with a short chunk, and with the service down *)

Section ShortRuns.

Variable lower : str -> str.
Variable target_language : str.
Variable generate_content : nat -> list json -> result str.
Variable disk : nat -> write_outcome.

Lemma python_range_single (n step : nat) :
  0 < n -> n <= step -> python_range n 0 n step = [0].
Proof.
  intros Hn Hs. destruct n as [| n]; [lia |]. cbn [python_range].
  destruct (Nat.ltb_spec 0 (S n)); [| lia].
  rewrite python_range_past by lia. reflexivity.
Qed.

Lemma slice_whole (hadiths : list hadith) (step : nat) :
  length hadiths <= step ->
  slice hadiths 0 (Nat.min (0 + step) (length hadiths)) = hadiths.
Proof.
  intros H. unfold slice. cbn [skipn]. apply firstn_all2. lia.
Qed.

(** A pass over records that fit in one chunk, with a valid reply. *)
Lemma single_chunk_pass (hadiths : list hadith) (step : nat) (w : world)
    (recs : list json) :
  0 < length hadiths -> length hadiths <= S step ->
  disk (attempts w) = WriteOk ->
  valid_reply lower target_language generate_content (attempts w) hadiths recs ->
  translate_hadiths lower target_language generate_content disk hadiths (S step) w
  = (Ok recs,
     log_all [SavedBatch 1 (path_join output_dir (batch_file_name 1));
              ProcessedBatch 1 (length recs); Sleep 3]
       (set_files (write_file (files w) (batch_file_name 1) (Valid (JArr recs)))
          (next_request w))).
Proof.
  intros Hpos Hle Hd Hr. unfold translate_hadiths.
  rewrite python_range_single by assumption. cbn [fold_left].
  rewrite (@translate_batch_ok lower target_language generate_content disk
             hadiths (S step) _ 0 recs).
  - reflexivity.
  - cbn [now]. rewrite slice_whole by exact Hle. exact Hr.
  - exact Hd.
Qed.

(** With the service down a pass gives nothing and writes nothing. *)
Lemma pass_with_service_down (hadiths : list hadith) (batch_size : nat)
    (indices : list nat) (st : loop_state) :
  (forall k contents, exists e, generate_content k contents = Raise e) ->
  let st' := fold_left (translate_batch lower target_language generate_content disk
                          hadiths batch_size) indices st in
  acc st' = acc st /\ files (now st') = files (now st)
  /\ final_file (now st') = final_file (now st).
Proof.
  intros Hdown. cbn zeta. revert st.
  induction indices as [| i rest IH]; intros st; [auto |].
  cbn [fold_left]. destruct (IH (translate_batch lower target_language
                                   generate_content disk hadiths batch_size st i))
    as (Ha & Hf & Hff).
  rewrite Ha, Hf, Hff. unfold translate_batch, try_batch.
  destruct (Hdown (attempts (now st))
              (create_batch_prompt target_language
                 (slice hadiths i (Nat.min (i + batch_size) (length hadiths)))))
    as (e & ->).
  auto.
Qed.

End ShortRuns.

(** X17: a run on fewer than 20 records with distinct identifiers, from
    an empty output directory, with valid replies and writes that
    succeed: the only chunk file is short, so its last record is left
    out of the combination, is the one missing record, and is asked for
    again in a second pass; the final file holds the records of the
    first reply but the last, followed by the record of the second. *)
Theorem short_run_asks_twice_for_last_record (lower : str -> str)
    (target_language : str) (generate_content : nat -> list json -> result str)
    (disk : nat -> write_outcome) (front : list hadith) (last_hadith : hadith)
    (w : world) (recs1 recs2 : list json) :
  length (front ++ [last_hadith]) < 20 ->
  NoDup (map id (front ++ [last_hadith])) ->
  files w = [] ->
  disk (attempts w) = WriteOk ->
  disk (S (attempts w)) = WriteOk ->
  valid_reply lower target_language generate_content (attempts w)
    (front ++ [last_hadith]) recs1 ->
  valid_reply lower target_language generate_content (S (attempts w))
    [last_hadith] recs2 ->
  let run := process_all lower target_language generate_content disk
               (front ++ [last_hadith]) w in
  fst run = Ok tt
  /\ find_missing_hadiths (front ++ [last_hadith]) (removelast recs1)
     = Ok [last_hadith]
  /\ final_file (snd run) = Some (removelast recs1 ++ recs2)
  /\ attempts (snd run) = S (S (attempts w)).
Proof.
  intros Hlen Hnd Hfiles Hd1 Hd2 Hr1 Hr2. cbn zeta.
  set (hadiths := front ++ [last_hadith]) in *.
  assert (Hpos : 0 < length hadiths) by (unfold hadiths; rewrite length_app; simpl; lia).
  assert (Hids1 : map tr_id recs1 = map Some (map id hadiths)).
  { destruct Hr1 as (_ & _ & _ & H). rewrite H, map_map. reflexivity. }
  assert (Hn1 : length recs1 = length hadiths).
  { rewrite <- (length_map tr_id), Hids1, !length_map. reflexivity. }
  assert (Hn2 : length recs2 = 1).
  { destruct Hr2 as (_ & _ & _ & H). rewrite <- (length_map tr_id), H. reflexivity. }
  destruct w as [f c k ff]. cbn [files attempts] in *. subst f.
  assert (Hmissing : find_missing_hadiths hadiths (removelast recs1) = Ok [last_hadith]).
  { unfold find_missing_hadiths.
    rewrite (@record_ids_of_tr_ids (removelast recs1) (map id front)).
    - cbn [bind]. f_equal. unfold hadiths. apply filter_missing. exact Hnd.
    - rewrite <- removelast_map, Hids1, removelast_map, removelast_map.
      unfold hadiths. rewrite removelast_last. reflexivity. }
  unfold process_all.
  rewrite (@single_chunk_pass lower target_language generate_content disk
             hadiths 19 _ recs1 Hpos) by (cbn [print attempts]; assumption || lia).
  unfold print, log_all, set_files, next_request.
  cbn [files attempts console final_file write_file].
  rewrite (@combine_one_file (World _ _ _ _) recs1 eq_refl).
  rewrite batch_contribution_list, Hn1.
  destruct (Nat.ltb_spec (length hadiths) 20) as [_ | Hge]; [| lia].
  rewrite Hmissing. cbn [reconcile length Nat.ltb Nat.leb].
  rewrite (@single_chunk_pass lower target_language generate_content disk
             [last_hadith] 4 _ recs2)
    by (cbn [attempts length]; assumption || lia).
  unfold print, log_all, set_files, next_request, write_final.
  cbn [fst snd files attempts console final_file].
  repeat split; reflexivity.
Qed.

Lemma short_run_asks_twice_for_last_record_witness :
  let run := process_all lower_ascii (lit "French")
               (fun k _ => match k with
                           | 0 => Ok (sample_reply 1 3)
                           | _ => Ok (sample_reply 3 1)
                           end)
               disk_ok (sample_hadiths 2 ++ [sample_hadith 3]) fresh_world in
  length (sample_hadiths 2 ++ [sample_hadith 3]) < 20
  /\ fst run = Ok tt
  /\ attempts (snd run) = 2
  /\ final_file (snd run) = Some (sample_records [1; 2; 3]%Z).
Proof.
  cbn zeta. split; [cbn; lia |].
  assert (Hnd : NoDup (map id (sample_hadiths 2 ++ [sample_hadith 3]))).
  { repeat (constructor; [cbn; intuition discriminate |]). constructor. }
  destruct (@short_run_asks_twice_for_last_record lower_ascii (lit "French")
              (fun k _ => match k with
                          | 0 => Ok (sample_reply 1 3)
                          | _ => Ok (sample_reply 3 1)
                          end)
              disk_ok (sample_hadiths 2) (sample_hadith 3) fresh_world
              (sample_records [1; 2; 3]%Z) (sample_records [3%Z]))
    as (Hok & _ & Hfinal & Hatt).
  - cbn. lia.
  - exact Hnd.
  - reflexivity.
  - reflexivity.
  - reflexivity.
  - exists (sample_reply 1 3). repeat split; vm_compute; reflexivity.
  - exists (sample_reply 3 1). repeat split; vm_compute; reflexivity.
  - split; [exact Hok |]. split; [exact Hatt | exact Hfinal].
Defined.

(** X18: with the service down for every request and an empty output
    directory, the run still ends normally: nothing is saved, and the
    final file holds an empty list. *)
Theorem service_down_gives_empty_final_file (lower : str -> str)
    (target_language : str) (generate_content : nat -> list json -> result str)
    (disk : nat -> write_outcome) (hadiths : list hadith) (w : world) :
  files w = [] ->
  (forall k contents, exists e, generate_content k contents = Raise e) ->
  let run := process_all lower target_language generate_content disk hadiths w in
  fst run = Ok tt /\ files (snd run) = [] /\ final_file (snd run) = Some [].
Proof.
  intros Hfiles Hdown. cbn zeta.
  assert (Hpass : forall hs n w0, files w0 = [] ->
            exists w1, translate_hadiths lower target_language generate_content disk
                         hs (S n) w0 = (Ok [], w1)
                       /\ files w1 = []).
  { intros hs n w0 Hw0. unfold translate_hadiths.
    destruct (@pass_with_service_down lower target_language generate_content disk
                hs (S n) (python_range (length hs) 0 (length hs) (S n))
                (LoopState [] 1 w0) Hdown) as (Ha & Hf & _).
    cbn [acc now] in Ha, Hf. rewrite Ha. eexists. split; [reflexivity |].
    rewrite Hf. exact Hw0. }
  unfold process_all.
  destruct (Hpass hadiths 19 (print StartingInitialTranslation w) Hfiles)
    as (w1 & -> & Hw1).
  unfold combine_batches_except_last. cbn [print files]. rewrite Hw1.
  cbn [batch_files json_names map filter keyed bind sort_by_key fold_left fst snd].
  assert (Hall : find_missing_hadiths hadiths [] = Ok hadiths).
  { unfold find_missing_hadiths. cbn [record_ids bind]. f_equal.
    apply filter_keeps_all. reflexivity. }
  rewrite Hall. unfold reconcile.
  destruct hadiths as [| h hs].
  - cbn [fst snd print write_final files final_file]. auto.
  - set (bs := if length (h :: hs) <? 20 then 5 else 20).
    assert (Hbs : exists n, bs = S n).
    { unfold bs. destruct (length (h :: hs) <? 20); eauto. }
    destruct Hbs as (n & ->).
    destruct (Hpass (h :: hs) n
                (print (ProcessingMissing (S n))
                   (print (FoundMissing (length (h :: hs)))
                      (print CheckingMissing (print CombiningBatches w1)))))
      as (w2 & -> & Hw2).
    + cbn [print files]. exact Hw1.
    + cbn [fst snd print write_final files final_file app]. auto.
Qed.

Lemma service_down_gives_empty_final_file_witness :
  let run := process_all lower_ascii (lit "French") service_down disk_ok
               (sample_hadiths 25) fresh_world in
  fst run = Ok tt /\ files (snd run) = [] /\ final_file (snd run) = Some [].
Proof.
  apply service_down_gives_empty_final_file.
  - reflexivity.
  - intros k contents. exists ServiceError. reflexivity.
Defined.
